(** * sweetts: the capture - describe - speak component of [src/index.tsx]

    The React component [App] is embedded as a state machine.  The component's
    hook state, its three refs, the DOM elements behind the refs, the speech
    synthesizer and the promises that are still pending are the fields of one
    [State]; every callback of the source is a computation in a small state
    and exception monad; the browser drives the machine through [Event]s.

    Conventions of the embedding:
    - strings are byte strings: the WTF-8 form of the JavaScript string,
      which is its UTF-8 form when the string is well formed and writes a
      lone surrogate as the three bytes ED, A0..BF, 80..BF;
    - a closure is closure-converted: [speak] and [speakLocally] read [voice]
      from the render that created them, so they take it as an argument;
    - the [async] function [captureAndDescribe] is split at its only [await]:
      the part before it, and [captureAndDescribe_resume] that runs when the
      promise of [generateContent] settles;
    - [console] output is not part of the state;
    - a state setter of [useState] takes effect at once; the click handler
      reads [isLoading] of the current state, as the handler of the latest
      render does;
    - the events of the machine are those of the mounted component; the
      unmount is the computation [unmount], which ends its life. *)

From Stdlib Require Import String Ascii List Bool Arith Lia.
Import ListNotations.
Local Open Scope string_scope.
Local Open Scope list_scope.

(** ** JavaScript values used by the component *)

Module Js.

(** [!text] holds for the empty string only. *)
Definition falsy (s : string) : bool := (s =? "")%string.

(** [a || b] on strings. *)
Definition or (a b : string) : string := if falsy a then b else a.

(** [s.startsWith(p)]. *)
Definition startsWith (s p : string) : bool := String.prefix p s.

Definition inRange (lo hi n : nat) : bool := ((lo <=? n) && (n <=? hi))%nat.

(** Characters [encodeURIComponent] leaves as they are:
    [A-Z a-z 0-9 - _ . ! ~ * ' ( )]. *)
Definition unreserved (c : ascii) : bool :=
  let n := nat_of_ascii c in
  inRange 65 90 n || inRange 97 122 n || inRange 48 57 n
  || existsb (Ascii.eqb c) (list_ascii_of_string "-_.!~*'()").

Definition hexDigit (n : nat) : ascii :=
  nth n (list_ascii_of_string "0123456789ABCDEF") "0"%char.

(** [s.isWellFormed()]: [s] has no lone surrogate, that is, in its byte
    form no byte ED is followed by a byte from A0 to BF. *)
Fixpoint isWellFormed (s : string) : bool :=
  match s with
  | EmptyString => true
  | String c rest =>
      match rest with
      | EmptyString => true
      | String d _ =>
          if ((nat_of_ascii c =? 237)%nat && inRange 160 191 (nat_of_ascii d))
          then false
          else isWellFormed rest
      end
  end.

(** What [encodeURIComponent(s)] returns when it returns: every other byte
    of the UTF-8 form becomes [%XX].  The call itself throws on a string
    that is not well formed; it is [encodeURIComponent] below. *)
Fixpoint encodeURIComponent (s : string) : string :=
  match s with
  | EmptyString => EmptyString
  | String c rest =>
      if unreserved c then String c (encodeURIComponent rest)
      else
        let n := nat_of_ascii c in
        String "%"%char
          (String (hexDigit (n / 16)%nat)
             (String (hexDigit (n mod 16)%nat) (encodeURIComponent rest)))
  end.

(** [s.split(',')], the pieces in order; [acc] is the piece being read,
    reversed. *)
Fixpoint splitAt (sep : ascii) (acc : list ascii) (s : string) : list string :=
  match s with
  | EmptyString => [string_of_list_ascii (rev acc)]
  | String c rest =>
      if Ascii.eqb c sep
      then string_of_list_ascii (rev acc) :: splitAt sep [] rest
      else splitAt sep (c :: acc) rest
  end.

Definition split (sep : ascii) (s : string) : list string := splitAt sep [] s.

End Js.

(** ** The fixed texts of the source *)

Definition msgAnalyzing : string := "Menganalisis...".
Definition msgCameraNotReady : string :=
  "Kamera belum siap. Mohon tunggu sejenak dan coba lagi.".
Definition msgInferenceFailed : string :=
  "Maaf, saya tidak dapat mendeskripsikan gambar. Silakan coba lagi.".
Definition msgUtteranceFailed : string :=
  "Gagal mengucapkan deskripsi. Fitur suara mungkin tidak didukung.".
Definition msgSpeechUnavailable : string :=
  "Fitur suara tidak tersedia di browser ini.".
Definition msgCameraDenied : string :=
  "Tidak dapat mengakses kamera. Silakan periksa izin browser Anda.".
Definition msgCameraUnsupported : string :=
  "Browser Anda tidak mendukung akses kamera.".
Definition promptText : string :=
  "Jelaskan gambar ini dalam satu atau dua kalimat singkat untuk orang tunanetra dalam Bahasa Indonesia. Prioritaskan penyebutan jumlah uang atau rintangan.".
Definition modelName : string := "gemini-2.5-flash".
Definition jpegMime : string := "image/jpeg".
Definition targetLang : string := "id-ID".

(** The template of line 64 around the encoded text [q]. *)
Definition ttsTemplate (q : string) : string :=
  ("https://translate.google.com/translate_tts?ie=UTF-8&q="
   ++ q ++ "&tl=id-ID&client=tw-ob")%string.

(** The address [speak] gives to the audio element. *)
Definition ttsUrl (text : string) : string :=
  ttsTemplate (Js.encodeURIComponent text).

(** ** Data *)

Record SpeechSynthesisVoice := {
  voiceName : string;
  lang : string
}.

Record SpeechSynthesisUtterance := {
  utteranceText : string;
  utteranceVoice : option SpeechSynthesisVoice;
  utteranceLang : string
}.

Inductive MediaStreamTrack := Live | Ended.

Definition MediaStream := list MediaStreamTrack.

(** What one call of [speak] closes over: [onErrorHandler] and the handler
    given to [catch] share the text and the [speakLocally] of the render;
    [closureId] is the identity of the function object, which
    [removeEventListener] compares. *)
Record Closure := {
  closureId : nat;
  closureText : string;
  closureVoice : option SpeechSynthesisVoice
}.

(** The argument of [generateContent]. *)
Record GenerateContentRequest := {
  requestModel : string;
  requestMimeType : string;
  requestData : option string;
  requestText : string
}.

(** How a promise settles. *)
Inductive Settled (A : Type) :=
| Fulfilled (value : A)
| Rejected (reason : string).
Arguments Fulfilled {A} value.
Arguments Rejected {A} reason.

(** What the component did, in the order it did it.  [CallSpeak] and
    [CallSpeakLocally] record that the function was entered; the other
    entries are writes to hook state and calls into the platform. *)
Inductive Effect :=
| SetIsLoading (b : bool)
| SetDescription (s : string)
| SetError (s : string)
| SetVoice (v : SpeechSynthesisVoice)
| CallSpeak (text : string)
| CallSpeakLocally (text : string)
| SynthCancel
| SynthSpeak (u : SpeechSynthesisUtterance)
| AudioAddErrorListener (id : nat)
| AudioRemoveErrorListener (id : nat)
| AudioSetSrc (url : string)
| AudioPlay (id : nat)
| CanvasResize (w h : nat)
| CanvasDrawImage (w h : nat)
| GenerateContent (r : GenerateContentRequest)
| GetUserMedia
| TrackStop.

Record ReactState := {
  isLoading : bool;
  description : string;
  error : string;
  voice : option SpeechSynthesisVoice
}.

(** [ref.current] is the element ([true]) or [null] ([false]). *)
Record Refs := {
  videoRef : bool;
  canvasRef : bool;
  audioRef : bool
}.

Record HTMLVideoElement := {
  srcObject : option MediaStream;
  readyState : nat;
  videoWidth : nat;
  videoHeight : nat
}.

Record HTMLCanvasElement := {
  width : nat;
  height : nat
}.

Record HTMLAudioElement := {
  src : string;
  errorListeners : list Closure
}.

(** [onvoiceschanged] is [loadVoices] ([true]) or [null]; [queue] holds the
    utterances given to [speak] and not cancelled, [utterances] every
    utterance ever given to it (each carries the [onerror] of the source). *)
Record SpeechSynthesis := {
  onvoiceschanged : bool;
  queue : list SpeechSynthesisUtterance;
  utterances : list SpeechSynthesisUtterance
}.

(** What the host answers when asked: the voices of [getVoices()], whether
    [navigator.mediaDevices.getUserMedia] exists, whether the local
    synthesizer throws, whether [getContext('2d')] gives a context, and
    what [toDataURL('image/jpeg')] returns for the current frame. *)
Record Platform := {
  getVoices : list SpeechSynthesisVoice;
  mediaDevices : bool;
  synthesisThrows : bool;
  context2d : bool;
  toDataURL : string
}.

(** Promises that have not settled: of [getUserMedia], of each
    [audio.play()], of [generateContent] (with the voice its continuation
    closes over). *)
Record Pending := {
  pendingGetUserMedia : bool;
  pendingPlay : list Closure;
  pendingGenerateContent : list (option SpeechSynthesisVoice)
}.

Record State := {
  react : ReactState;
  refs : Refs;
  video : HTMLVideoElement;
  canvas : HTMLCanvasElement;
  audio : HTMLAudioElement;
  speechSynthesis : SpeechSynthesis;
  platform : Platform;
  pending : Pending;
  nextId : nat;
  trace : list Effect
}.

(** Field updates. *)
Definition withReact (f : ReactState -> ReactState) (s : State) : State :=
  {| react := f (react s); refs := refs s; video := video s; canvas := canvas s;
     audio := audio s; speechSynthesis := speechSynthesis s;
     platform := platform s; pending := pending s; nextId := nextId s;
     trace := trace s |}.
Definition withRefs (f : Refs -> Refs) (s : State) : State :=
  {| react := react s; refs := f (refs s); video := video s; canvas := canvas s;
     audio := audio s; speechSynthesis := speechSynthesis s;
     platform := platform s; pending := pending s; nextId := nextId s;
     trace := trace s |}.
Definition withVideo (f : HTMLVideoElement -> HTMLVideoElement) (s : State) : State :=
  {| react := react s; refs := refs s; video := f (video s); canvas := canvas s;
     audio := audio s; speechSynthesis := speechSynthesis s;
     platform := platform s; pending := pending s; nextId := nextId s;
     trace := trace s |}.
Definition withCanvas (f : HTMLCanvasElement -> HTMLCanvasElement) (s : State) : State :=
  {| react := react s; refs := refs s; video := video s; canvas := f (canvas s);
     audio := audio s; speechSynthesis := speechSynthesis s;
     platform := platform s; pending := pending s; nextId := nextId s;
     trace := trace s |}.
Definition withAudio (f : HTMLAudioElement -> HTMLAudioElement) (s : State) : State :=
  {| react := react s; refs := refs s; video := video s; canvas := canvas s;
     audio := f (audio s); speechSynthesis := speechSynthesis s;
     platform := platform s; pending := pending s; nextId := nextId s;
     trace := trace s |}.
Definition withSynth (f : SpeechSynthesis -> SpeechSynthesis) (s : State) : State :=
  {| react := react s; refs := refs s; video := video s; canvas := canvas s;
     audio := audio s; speechSynthesis := f (speechSynthesis s);
     platform := platform s; pending := pending s; nextId := nextId s;
     trace := trace s |}.
Definition withPlatform (f : Platform -> Platform) (s : State) : State :=
  {| react := react s; refs := refs s; video := video s; canvas := canvas s;
     audio := audio s; speechSynthesis := speechSynthesis s;
     platform := f (platform s); pending := pending s; nextId := nextId s;
     trace := trace s |}.
Definition withPending (f : Pending -> Pending) (s : State) : State :=
  {| react := react s; refs := refs s; video := video s; canvas := canvas s;
     audio := audio s; speechSynthesis := speechSynthesis s;
     platform := platform s; pending := f (pending s); nextId := nextId s;
     trace := trace s |}.
Definition withNextId (n : nat) (s : State) : State :=
  {| react := react s; refs := refs s; video := video s; canvas := canvas s;
     audio := audio s; speechSynthesis := speechSynthesis s;
     platform := platform s; pending := pending s; nextId := n;
     trace := trace s |}.
Definition record (e : Effect) (s : State) : State :=
  {| react := react s; refs := refs s; video := video s; canvas := canvas s;
     audio := audio s; speechSynthesis := speechSynthesis s;
     platform := platform s; pending := pending s; nextId := nextId s;
     trace := trace s ++ [e] |}.

(** ** The monad of the callbacks: state, and JavaScript exceptions *)

Inductive Completion (A : Type) :=
| Normal (a : A)
| Throw (reason : string).
Arguments Normal {A} a.
Arguments Throw {A} reason.

Definition M (A : Type) : Type := State -> Completion A * State.

Definition ret {A} (a : A) : M A := fun s => (Normal a, s).

Definition bind {A B} (m : M A) (k : A -> M B) : M B :=
  fun s =>
    match m s with
    | (Normal a, s') => k a s'
    | (Throw r, s') => (Throw r, s')
    end.

Definition throw {A} (reason : string) : M A := fun s => (Throw reason, s).

(** [try { body } catch (e) { handler(e) }]. *)
Definition tryCatch {A} (body : M A) (handler : string -> M A) : M A :=
  fun s =>
    match body s with
    | (Normal a, s') => (Normal a, s')
    | (Throw r, s') => handler r s'
    end.

Definition get : M State := fun s => (Normal s, s).
Definition modify (f : State -> State) : M unit := fun s => (Normal tt, f s).
Definition emit (e : Effect) : M unit := modify (record e).

Declare Scope js_scope.
Delimit Scope js_scope with js.
Notation "x <- m ; k" := (bind m (fun x => k))
  (at level 61, m at next level, right associativity) : js_scope.
Notation "m ;; k" := (bind m (fun _ => k))
  (at level 61, right associativity) : js_scope.
Local Open Scope js_scope.

(** [arr.forEach(f)]. *)
Fixpoint forEach {A} (l : list A) (f : A -> M unit) : M unit :=
  match l with
  | [] => ret tt
  | a :: rest => f a ;; forEach rest f
  end.

(** The state a computation leaves, and how it completed. *)
Definition exec {A} (m : M A) (s : State) : State := snd (m s).
Definition completion {A} (m : M A) (s : State) : Completion A := fst (m s).

(** ** Hook state setters *)

Definition setIsLoading (b : bool) : M unit :=
  emit (SetIsLoading b) ;;
  modify (withReact (fun r =>
    {| isLoading := b; description := description r; error := error r;
       voice := voice r |})).

Definition setDescription (text : string) : M unit :=
  emit (SetDescription text) ;;
  modify (withReact (fun r =>
    {| isLoading := isLoading r; description := text; error := error r;
       voice := voice r |})).

Definition setError (text : string) : M unit :=
  emit (SetError text) ;;
  modify (withReact (fun r =>
    {| isLoading := isLoading r; description := description r; error := text;
       voice := voice r |})).

Definition setVoice (v : SpeechSynthesisVoice) : M unit :=
  emit (SetVoice v) ;;
  modify (withReact (fun r =>
    {| isLoading := isLoading r; description := description r;
       error := error r; voice := Some v |})).

(** ** Calls into the platform *)

(** [window.speechSynthesis.cancel()]: nothing stays queued or spoken. *)
Definition synthCancel : M unit :=
  emit SynthCancel ;;
  modify (withSynth (fun y =>
    {| onvoiceschanged := onvoiceschanged y; queue := [];
       utterances := utterances y |})).

(** [window.speechSynthesis.speak(utterance)]; on a host whose synthesizer
    fails this is the call that throws. *)
Definition synthSpeak (u : SpeechSynthesisUtterance) : M unit :=
  s <- get ;
  if synthesisThrows (platform s) then throw "speechSynthesis.speak"
  else
    emit (SynthSpeak u) ;;
    modify (withSynth (fun y =>
      {| onvoiceschanged := onvoiceschanged y; queue := queue y ++ [u];
         utterances := utterances y ++ [u] |})).

Definition sameClosure (a b : Closure) : bool :=
  (closureId a =? closureId b)%nat.

Definition dropListener (h : Closure) (a : HTMLAudioElement) : HTMLAudioElement :=
  {| src := src a;
     errorListeners := filter (fun l => negb (sameClosure l h)) (errorListeners a) |}.

(** [audio.addEventListener('error', h, { once: true })]. *)
Definition addEventListener (h : Closure) : M unit :=
  emit (AudioAddErrorListener (closureId h)) ;;
  modify (withAudio (fun a =>
    {| src := src a; errorListeners := errorListeners a ++ [h] |})).

(** [audio.removeEventListener('error', h)]. *)
Definition removeEventListener (h : Closure) : M unit :=
  emit (AudioRemoveErrorListener (closureId h)) ;;
  modify (withAudio (dropListener h)).

(** [audio.src = url]. *)
Definition setSrc (url : string) : M unit :=
  emit (AudioSetSrc url) ;;
  modify (withAudio (fun a =>
    {| src := url; errorListeners := errorListeners a |})).

(** [audio.play()]: the promise stays pending until the platform settles
    it; [h] is what its [catch] handler closes over. *)
Definition play (h : Closure) : M unit :=
  emit (AudioPlay (closureId h)) ;;
  modify (withPending (fun p =>
    {| pendingGetUserMedia := pendingGetUserMedia p;
       pendingPlay := pendingPlay p ++ [h];
       pendingGenerateContent := pendingGenerateContent p |})).

(** A function object not seen before. *)
Definition fresh : M nat :=
  s <- get ;
  modify (withNextId (S (nextId s))) ;;
  ret (nextId s).

(** [encodeURIComponent(text)]: it throws [URIError] when the text has a
    lone surrogate. *)
Definition encodeURIComponent (text : string) : M string :=
  if Js.isWellFormed text then ret (Js.encodeURIComponent text)
  else throw "URIError".

(** [await p] once [p] has settled. *)
Definition await {A} (r : Settled A) : M A :=
  match r with
  | Fulfilled v => ret v
  | Rejected reason => throw reason
  end.

(** ** The callbacks of [App] *)

(** [speakLocally], lines 19-37; [v] is the [voice] of the render. *)
Definition speakLocally (v : option SpeechSynthesisVoice) (text : string) : M unit :=
  emit (CallSpeakLocally text) ;;
  if Js.falsy text then ret tt
  else
    tryCatch
      (synthCancel ;;
       let utterance :=
         {| utteranceText := text; utteranceVoice := v;
            utteranceLang := targetLang |} in
       synthSpeak utterance)
      (fun _ => setError msgSpeechUnavailable).

(** [speak], lines 40-75. *)
Definition speak (v : option SpeechSynthesisVoice) (text : string) : M unit :=
  emit (CallSpeak text) ;;
  if Js.falsy text then ret tt
  else
    synthCancel ;;
    s <- get ;
    if negb (audioRef (refs s)) then speakLocally v text
    else
      id <- fresh ;
      let onErrorHandler :=
        {| closureId := id; closureText := text; closureVoice := v |} in
      addEventListener onErrorHandler ;;
      q <- encodeURIComponent text ;
      let url := ttsTemplate q in
      setSrc url ;;
      play onErrorHandler.

(** The body of [onErrorHandler], lines 56-59. *)
Definition onErrorHandler (h : Closure) : M unit :=
  speakLocally (closureVoice h) (closureText h).

(** The handler given to [catch], lines 68-74. *)
Definition playCatch (h : Closure) : M unit :=
  removeEventListener h ;;
  speakLocally (closureVoice h) (closureText h).

(** The [onerror] of an utterance, lines 28-31. *)
Definition utteranceOnError : M unit :=
  setError msgUtteranceFailed.

(** [loadVoices], lines 80-86. *)
Definition loadVoices : M unit :=
  s <- get ;
  let availableVoices := getVoices (platform s) in
  let indonesianVoice :=
    match find (fun v => (lang v =? "id-ID")%string) availableVoices with
    | Some v => Some v
    | None => find (fun v => Js.startsWith (lang v) "id") availableVoices
    end in
  match indonesianVoice with
  | Some v => setVoice v
  | None => ret tt
  end.

(** [setupCamera], lines 92-113, up to its [await]; it runs in the effect
    of the first render, whose [voice] is [null]. *)
Definition setupCamera : M unit :=
  s <- get ;
  if mediaDevices (platform s) then
    emit GetUserMedia ;;
    modify (withPending (fun p =>
      {| pendingGetUserMedia := true; pendingPlay := pendingPlay p;
         pendingGenerateContent := pendingGenerateContent p |}))
  else
    let errorMessage := msgCameraUnsupported in
    setError errorMessage ;;
    speak None errorMessage.

(** [setupCamera] from its [await] on. *)
Definition setupCamera_resume (r : Settled MediaStream) : M unit :=
  tryCatch
    (stream <- await r ;
     s <- get ;
     if videoRef (refs s) then
       modify (withVideo (fun e =>
         {| srcObject := Some stream; readyState := readyState e;
            videoWidth := videoWidth e; videoHeight := videoHeight e |}))
     else ret tt)
    (fun _ =>
       let errorMessage := msgCameraDenied in
       setError errorMessage ;;
       speak None errorMessage).

(** [track.stop()] for every track of the stream. *)
Definition stopTracks (stream : MediaStream) : M unit :=
  forEach stream (fun _ => emit TrackStop) ;;
  modify (withVideo (fun e =>
    {| srcObject := Some (map (fun _ => Ended) stream);
       readyState := readyState e; videoWidth := videoWidth e;
       videoHeight := videoHeight e |})).

(** The function the effect returns, lines 117-126. *)
Definition cleanup : M unit :=
  s <- get ;
  (if videoRef (refs s) then
     match srcObject (video s) with
     | Some stream => stopTracks stream
     | None => ret tt
     end
   else ret tt) ;;
  synthCancel ;;
  modify (withSynth (fun y =>
    {| onvoiceschanged := false; queue := queue y;
       utterances := utterances y |})).

(** The effect of [useEffect], lines 78-115. *)
Definition effect : M unit :=
  modify (withSynth (fun y =>
    {| onvoiceschanged := true; queue := queue y;
       utterances := utterances y |})) ;;
  loadVoices ;;
  setupCamera.

(** The camera test of line 140. *)
Definition cameraReady (s : State) : bool :=
  videoRef (refs s) && canvasRef (refs s) && (2 <=? readyState (video s))%nat.

(** The part of [captureAndDescribe] that follows the [await], lines
    170-186: the rest of the [try], its [catch], and line 186. *)
Definition captureAndDescribe_resume
    (v : option SpeechSynthesisVoice) (r : Settled string) : M unit :=
  tryCatch
    (resultText <- await r ;
     setDescription resultText ;;
     speak v resultText)
    (fun _ =>
       let errorMessage := msgInferenceFailed in
       setError errorMessage ;;
       speak v errorMessage) ;;
  setIsLoading false.

(** [captureAndDescribe], lines 129-187, up to its [await]; [loading] and
    [v] are [isLoading] and [voice] of the render the handler belongs to. *)
Definition captureAndDescribe
    (loading : bool) (v : option SpeechSynthesisVoice) : M unit :=
  if loading then ret tt
  else
    setIsLoading true ;;
    setDescription "" ;;
    setError "" ;;
    speak v msgAnalyzing ;;
    s <- get ;
    if cameraReady s then
      if context2d (platform s) then
        let w := videoWidth (video s) in
        let h := videoHeight (video s) in
        emit (CanvasResize w h) ;;
        modify (withCanvas (fun _ => {| width := w; height := h |})) ;;
        emit (CanvasDrawImage w h) ;;
        let dataUrl := toDataURL (platform s) in
        let base64Data := nth_error (Js.split ","%char dataUrl) 1 in
        emit (GenerateContent
                {| requestModel := modelName; requestMimeType := jpegMime;
                   requestData := base64Data; requestText := promptText |}) ;;
        modify (withPending (fun p =>
          {| pendingGetUserMedia := pendingGetUserMedia p;
             pendingPlay := pendingPlay p;
             pendingGenerateContent := pendingGenerateContent p ++ [v] |}))
      else setIsLoading false
    else
      let errorMessage := msgCameraNotReady in
      setError errorMessage ;;
      speak v errorMessage ;;
      setIsLoading false.

(** What the description box shows, line 297: [description || error]. *)
Definition descriptionBox (s : State) : string :=
  Js.or (description (react s)) (error (react s)).

(** ** The component as a machine *)

(** What the browser can do to the mounted component:
    - [Click]: the button is activated;
    - [GenerateContentSettled r]: the promise of the oldest pending
      [generateContent] call settles, with the response text or a failure;
    - [AudioError]: the audio element fires [error];
    - [PlaySettled id ok]: the promise of the [play] call of attempt [id]
      is fulfilled or rejected;
    - [UtteranceError]: an utterance given to the synthesizer fires [error];
    - [VoicesChanged vs]: the synthesizer announces the voice list [vs];
    - [GetUserMediaSettled r]: the camera request settles;
    - [VideoProgress rs w h dataUrl]: the video, once it has a stream, has
      ready state [rs] and frames of [w] by [h] pixels, which the canvas
      encodes as [dataUrl]. *)
Inductive Event :=
| Click
| GenerateContentSettled (r : Settled string)
| AudioError
| PlaySettled (id : nat) (fulfilled : bool)
| UtteranceError
| VoicesChanged (vs : list SpeechSynthesisVoice)
| GetUserMediaSettled (r : Settled MediaStream)
| VideoProgress (rs w h : nat) (dataUrl : string).

(** The listeners of one [error] event, in the order they were added; a
    listener added with [once] is removed just before it is called. *)
Definition fireErrorListeners (ls : list Closure) : M unit :=
  forEach ls (fun h => modify (withAudio (dropListener h)) ;; onErrorHandler h).

(** A settled [play] promise is no longer pending. *)
Definition takePlay (h : Closure) : M unit :=
  modify (withPending (fun p =>
    {| pendingGetUserMedia := pendingGetUserMedia p;
       pendingPlay := filter (fun c => negb (sameClosure c h)) (pendingPlay p);
       pendingGenerateContent := pendingGenerateContent p |})).

Definition handle (e : Event) : M unit :=
  s <- get ;
  match e with
  | Click =>
      captureAndDescribe (isLoading (react s)) (voice (react s))
  | GenerateContentSettled r =>
      match pendingGenerateContent (pending s) with
      | [] => ret tt
      | v :: rest =>
          modify (withPending (fun p =>
            {| pendingGetUserMedia := pendingGetUserMedia p;
               pendingPlay := pendingPlay p;
               pendingGenerateContent := rest |})) ;;
          captureAndDescribe_resume v r
      end
  | AudioError =>
      fireErrorListeners (errorListeners (audio s))
  | PlaySettled id fulfilled =>
      match find (fun c => (closureId c =? id)%nat) (pendingPlay (pending s)) with
      | None => ret tt
      | Some h =>
          takePlay h ;;
          if fulfilled then ret tt else playCatch h
      end
  | UtteranceError =>
      match utterances (speechSynthesis s) with
      | [] => ret tt
      | _ :: _ => utteranceOnError
      end
  | VoicesChanged vs =>
      modify (withPlatform (fun p =>
        {| getVoices := vs; mediaDevices := mediaDevices p;
           synthesisThrows := synthesisThrows p; context2d := context2d p;
           toDataURL := toDataURL p |})) ;;
      if onvoiceschanged (speechSynthesis s) then loadVoices else ret tt
  | GetUserMediaSettled r =>
      if pendingGetUserMedia (pending s) then
        modify (withPending (fun p =>
          {| pendingGetUserMedia := false; pendingPlay := pendingPlay p;
             pendingGenerateContent := pendingGenerateContent p |})) ;;
        setupCamera_resume r
      else ret tt
  | VideoProgress rs w h dataUrl =>
      match srcObject (video s) with
      | None => ret tt
      | Some stream =>
          modify (withVideo (fun _ =>
            {| srcObject := Some stream; readyState := rs;
               videoWidth := w; videoHeight := h |})) ;;
          modify (withPlatform (fun p =>
            {| getVoices := getVoices p; mediaDevices := mediaDevices p;
               synthesisThrows := synthesisThrows p; context2d := context2d p;
               toDataURL := dataUrl |}))
      end
  end.

Definition dispatch (s : State) (e : Event) : State := exec (handle e) s.

Definition run (es : list Event) (s : State) : State := fold_left dispatch es s.

(** The component before its effect has run: hook state as [useState]
    initialises it, the three elements rendered and referenced. *)
Definition initial (p : Platform) : State :=
  {| react := {| isLoading := false; description := ""; error := "";
                 voice := None |};
     refs := {| videoRef := true; canvasRef := true; audioRef := true |};
     video := {| srcObject := None; readyState := 0; videoWidth := 0;
                 videoHeight := 0 |};
     canvas := {| width := 300; height := 150 |};
     audio := {| src := ""; errorListeners := [] |};
     speechSynthesis := {| onvoiceschanged := false; queue := [];
                           utterances := [] |};
     platform := p;
     pending := {| pendingGetUserMedia := false; pendingPlay := [];
                   pendingGenerateContent := [] |};
     nextId := 0;
     trace := [] |}.

Definition mount (p : Platform) : State := exec effect (initial p).

(** A state the mounted component can be in. *)
Definition reachable (s : State) : Prop :=
  exists p es, s = run es (mount p).

(** React detaches the refs of the elements it removes when it commits the
    removal; the function returned by [useEffect] runs after that commit. *)
Definition detachRefs : M unit :=
  modify (withRefs (fun _ =>
    {| videoRef := false; canvasRef := false; audioRef := false |})).

Definition unmount : M unit := detachRefs ;; cleanup.

(** ** Reading a trace *)

Definition speakCalls (t : list Effect) : list string :=
  flat_map (fun e => match e with CallSpeak text => [text] | _ => [] end) t.

Definition speakLocallyCalls (t : list Effect) : list string :=
  flat_map (fun e => match e with CallSpeakLocally text => [text] | _ => [] end) t.

Definition generateContentCalls (t : list Effect) : list GenerateContentRequest :=
  flat_map (fun e => match e with GenerateContent r => [r] | _ => [] end) t.

(** The texts given to [setError], in order. *)
Definition errorWrites (t : list Effect) : list string :=
  flat_map (fun e => match e with SetError text => [text] | _ => [] end) t.

(** Calls that reach a speech backend: the audio element or the local
    synthesizer. *)
Definition backendCall (e : Effect) : bool :=
  match e with
  | SynthCancel | SynthSpeak _ | AudioAddErrorListener _
  | AudioRemoveErrorListener _ | AudioSetSrc _ | AudioPlay _ => true
  | _ => false
  end.

Definition liveTracks (s : State) : nat :=
  match srcObject (video s) with
  | Some stream => length (filter (fun t => match t with Live => true | Ended => false end) stream)
  | None => 0
  end.

(** ** Relations between states used in the proofs *)

(** [s'] differs from [s] at most in what the speech path writes: the
    error text, the audio element, the synthesizer's utterances, the
    pending [play] promises, the id counter and the trace, where no call
    of [generateContent] is added. *)
Definition speechOnly (s s' : State) : Prop :=
  refs s' = refs s /\ video s' = video s /\ canvas s' = canvas s /\
  platform s' = platform s /\
  isLoading (react s') = isLoading (react s) /\
  description (react s') = description (react s) /\
  voice (react s') = voice (react s) /\
  pendingGetUserMedia (pending s') = pendingGetUserMedia (pending s) /\
  pendingGenerateContent (pending s') = pendingGenerateContent (pending s) /\
  onvoiceschanged (speechSynthesis s') = onvoiceschanged (speechSynthesis s) /\
  generateContentCalls (trace s') = generateContentCalls (trace s).

(** [s'] is in the same cycle as [s]: the flag, the description, the
    pending inference call and the refs are those of [s], and no call of
    [generateContent] was added. *)
Definition sameCycle (s s' : State) : Prop :=
  refs s' = refs s /\
  isLoading (react s') = isLoading (react s) /\
  description (react s') = description (react s) /\
  pendingGenerateContent (pending s') = pendingGenerateContent (pending s) /\
  generateContentCalls (trace s') = generateContentCalls (trace s).

(** Every field but the trace is the same. *)
Definition sameButTrace (s s' : State) : Prop :=
  react s' = react s /\ refs s' = refs s /\ video s' = video s /\
  canvas s' = canvas s /\ audio s' = audio s /\
  speechSynthesis s' = speechSynthesis s /\ platform s' = platform s /\
  pending s' = pending s /\ nextId s' = nextId s.

Definition settlesGenerateContent (e : Event) : bool :=
  match e with GenerateContentSettled _ => true | _ => false end.


Definition attached : Refs :=
  {| videoRef := true; canvasRef := true; audioRef := true |}.

(** The invariant of the mounted component: the refs point to their
    elements, and an inference call is pending exactly while the flag is
    set, and then only one. *)
Definition wellFormed (s : State) : Prop :=
  refs s = attached /\
  if isLoading (react s)
  then exists v, pendingGenerateContent (pending s) = [v]
  else pendingGenerateContent (pending s) = [].


(** ** A concrete host, for the examples *)

Definition demoVoice : SpeechSynthesisVoice :=
  {| voiceName := "Damayanti"; lang := "id-ID" |}.

Definition demoPlatform : Platform :=
  {| getVoices := [demoVoice]; mediaDevices := true; synthesisThrows := false;
     context2d := true; toDataURL := "data:," |}.

Definition demoStream : MediaStream := [Live; Live].

(** The camera was granted and the video has data. *)
Definition demoReady : State :=
  run [GetUserMediaSettled (Fulfilled demoStream);
       VideoProgress 4 640 480 "data:image/jpeg;base64,/9j/4AAQSkZJRg=="]
      (mount demoPlatform).

(** The same, on a host whose canvas gives no 2D context. *)
Definition demoNoContext : State :=
  run [GetUserMediaSettled (Fulfilled demoStream);
       VideoProgress 4 640 480 "data:image/jpeg;base64,/9j/4AAQSkZJRg=="]
      (mount {| getVoices := [demoVoice]; mediaDevices := true;
                synthesisThrows := false; context2d := false;
                toDataURL := "data:," |}).

Definition demoText : string := "Ada meja di depan Anda".

(** A text that is the one code unit U+D83D, a high surrogate with no low
    surrogate after it: the bytes ED A0 BD. *)
Definition demoLoneSurrogate : string :=
  String (ascii_of_nat 237)
    (String (ascii_of_nat 160) (String (ascii_of_nat 189) EmptyString)).

(** A cycle is waiting for the inference call. *)
Definition demoInFlight : State := dispatch demoReady Click.

(** What every cycle that starts does first, lines 132-135. *)
Definition cyclePrefix : list Effect :=
  [SetIsLoading true; SetDescription ""; SetError ""; CallSpeak msgAnalyzing].

(** One attempt of [speak] is under way: the click on [demoReady] called
    [speak] once, its listener and its [play] promise have the id 0. *)
Definition demoAttempt : Closure :=
  {| closureId := 0; closureText := msgAnalyzing;
     closureVoice := Some demoVoice |}.

(** A first cycle went through with both of its audio clips playing; a
    second cycle has started. *)
Definition demoSecondCycle : State :=
  run [Click; PlaySettled 0 true;
       GenerateContentSettled (Fulfilled demoText); PlaySettled 1 true;
       Click]
      demoReady.

(** The attempt of [speak] that is under way in [demoSecondCycle]: the
    third call of [speak] with the audio element, so its id is 2. *)
Definition demoSecondAttempt : Closure :=
  {| closureId := 2; closureText := msgAnalyzing;
     closureVoice := Some demoVoice |}.

(** ** Definitions for the further properties *)

(** The voice [loadVoices] selects from a voice list, line 82. *)
Definition indonesianVoice (availableVoices : list SpeechSynthesisVoice)
  : option SpeechSynthesisVoice :=
  match find (fun v => (lang v =? "id-ID")%string) availableVoices with
  | Some v => Some v
  | None => find (fun v => Js.startsWith (lang v) "id") availableVoices
  end.

Definition isIndonesian (v : SpeechSynthesisVoice) : bool :=
  Js.startsWith (lang v) "id".

(** The utterance [speakLocally] builds, lines 23-27. *)
Definition utteranceOf (v : option SpeechSynthesisVoice) (text : string)
  : SpeechSynthesisUtterance :=
  {| utteranceText := text; utteranceVoice := v; utteranceLang := targetLang |}.

(** The closure of the attempt that [speak] starts in state [s]. *)
Definition attemptOf (s : State) (v : option SpeechSynthesisVoice)
    (text : string) : Closure :=
  {| closureId := nextId s; closureText := text; closureVoice := v |}.

(** Every text the source gives to [setError]. *)
Definition fixedMessages : list string :=
  [""; msgCameraNotReady; msgInferenceFailed; msgUtteranceFailed;
   msgSpeechUnavailable; msgCameraDenied; msgCameraUnsupported].

(** What every state of the mounted component satisfies besides
    [wellFormed]: the synthesizer holds at most one utterance, the error is
    one of the fixed texts, a selected voice is an Indonesian one, and the
    voice-list callback is registered. *)
Definition tidy (s : State) : Prop :=
  length (queue (speechSynthesis s)) <= 1 /\
  In (error (react s)) fixedMessages /\
  (forall v, voice (react s) = Some v -> isIndonesian v = true) /\
  onvoiceschanged (speechSynthesis s) = true.

(** One step towards [tidy]: each of the four parts is kept or set to a
    value that is fine. *)
Definition tidyStep (s s' : State) : Prop :=
  (queue (speechSynthesis s') = queue (speechSynthesis s) \/
   length (queue (speechSynthesis s')) <= 1) /\
  (error (react s') = error (react s) \/
   In (error (react s')) fixedMessages) /\
  (voice (react s') = voice (react s) \/
   exists v, voice (react s') = Some v /\ isIndonesian v = true) /\
  onvoiceschanged (speechSynthesis s') = onvoiceschanged (speechSynthesis s).


(** The listener that [setupCamera] registers when it speaks an error at
    mount: the first attempt, with the [voice] of the first render. *)
Definition firstAttempt (text : string) : Closure :=
  {| closureId := 0; closureText := text; closureVoice := None |}.

(** The value of a hexadecimal digit as [encodeURIComponent] writes it. *)
Definition hexValue (c : ascii) : nat :=
  let n := nat_of_ascii c in
  if (n <? 58)%nat then n - 48 else n - 55.

(** Characters that separate the parts of an address. *)
Definition urlDelimiters : list ascii :=
  list_ascii_of_string "&=#?/+ :;,@$".

(** ** Definitions for the error written during a wait *)




(** ** Definitions for the address of the audio element *)

(** The audio element has no address yet, or the address [speak] builds
    from a text that [encodeURIComponent] accepts. *)
Definition addressed (s : State) : Prop :=
  src (audio s) = "" \/
  exists text, Js.isWellFormed text = true /\ src (audio s) = ttsUrl text.

(** From [s] to [s'] the address stayed, or became that of such a text. *)
Definition addressStep (s s' : State) : Prop :=
  src (audio s') = src (audio s) \/
  exists text, Js.isWellFormed text = true /\ src (audio s') = ttsUrl text.

(** * Proofs *)

(** ** Tactics *)

Ltac break_state s :=
  destruct s as [[? ? ? ?] [? ? ?] [? ? ? ?] [? ?] [? ?] [? ? ?]
                   [? ? ? ? ?] [? ? ?] ? ?].

(** Unfold the callbacks down to the state they build. *)
Ltac run_js :=
  cbv [speak speakLocally onErrorHandler playCatch utteranceOnError
       captureAndDescribe captureAndDescribe_resume cameraReady
       setupCamera setupCamera_resume cleanup detachRefs unmount
       takePlay dispatch handle effect
       synthCancel synthSpeak addEventListener removeEventListener setSrc
       play fresh await encodeURIComponent
       setIsLoading setDescription setError setVoice emit
       modify get bind ret throw tryCatch exec completion
       withReact withRefs withVideo withCanvas withAudio withSynth
       withPlatform withPending withNextId record
       react refs video canvas audio speechSynthesis platform pending
       nextId trace isLoading description error voice
       audioRef videoRef canvasRef srcObject readyState videoWidth
       videoHeight errorListeners src onvoiceschanged queue utterances
       getVoices mediaDevices synthesisThrows context2d toDataURL
       pendingGetUserMedia pendingPlay pendingGenerateContent
       closureId closureText closureVoice
       andb negb fst snd].

(** Read the calls out of a trace that was extended at its end. *)
Ltac read_trace :=
  unfold generateContentCalls, speakCalls, speakLocallyCalls;
  rewrite ?flat_map_app; cbn [flat_map app]; rewrite ?app_nil_r;
  rewrite <- ?app_assoc; cbn [app].

(** Case analysis on the flags a callback tests. *)
Ltac split_ifs :=
  repeat match goal with
         | |- context [if ?b then _ else _] => is_var b; destruct b; run_js
         | |- context [(2 <=? ?n)%nat] => destruct (2 <=? n)%nat; run_js
         | |- context [if Js.isWellFormed ?t then _ else _] =>
             is_var t; destruct (Js.isWellFormed t); run_js
         end.

Ltac frame := repeat split; try (read_trace; reflexivity).

(** ** The monad *)

Lemma run_result {A} (m : M A) s a :
  completion m s = Normal a -> m s = (Normal a, exec m s).
Proof.
  unfold completion, exec. destruct (m s) as [c s']. cbn. now intros ->.
Qed.

Lemma exec_bind {A B} (m : M A) (k : A -> M B) s a :
  completion m s = Normal a ->
  exec (bind m k) s = exec (k a) (exec m s).
Proof.
  unfold completion, exec, bind. destruct (m s) as [c s']. cbn.
  now intros ->.
Qed.

Lemma completion_bind {A B} (m : M A) (k : A -> M B) s a :
  completion m s = Normal a ->
  completion (bind m k) s = completion (k a) (exec m s).
Proof.
  unfold completion, exec, bind. destruct (m s) as [c s']. cbn.
  now intros ->.
Qed.

(** ** The fixed texts are not empty *)

Lemma falsy_msgAnalyzing : Js.falsy msgAnalyzing = false.
Proof. reflexivity. Qed.
Lemma falsy_msgCameraNotReady : Js.falsy msgCameraNotReady = false.
Proof. reflexivity. Qed.
Lemma falsy_msgInferenceFailed : Js.falsy msgInferenceFailed = false.
Proof. reflexivity. Qed.
Lemma falsy_msgCameraDenied : Js.falsy msgCameraDenied = false.
Proof. reflexivity. Qed.
Lemma falsy_msgCameraUnsupported : Js.falsy msgCameraUnsupported = false.
Proof. reflexivity. Qed.

Lemma wellFormed_msgAnalyzing : Js.isWellFormed msgAnalyzing = true.
Proof. reflexivity. Qed.
Lemma wellFormed_msgCameraNotReady : Js.isWellFormed msgCameraNotReady = true.
Proof. reflexivity. Qed.
Lemma wellFormed_msgInferenceFailed : Js.isWellFormed msgInferenceFailed = true.
Proof. reflexivity. Qed.
Lemma wellFormed_msgCameraDenied : Js.isWellFormed msgCameraDenied = true.
Proof. reflexivity. Qed.
Lemma wellFormed_msgCameraUnsupported :
  Js.isWellFormed msgCameraUnsupported = true.
Proof. reflexivity. Qed.

Lemma falsy_empty text : Js.falsy text = true <-> text = "".
Proof. unfold Js.falsy. apply String.eqb_eq. Qed.

Ltac js :=
  repeat progress
    (run_js;
     rewrite ?falsy_msgAnalyzing, ?falsy_msgCameraNotReady,
       ?falsy_msgInferenceFailed, ?falsy_msgCameraDenied,
       ?falsy_msgCameraUnsupported,
       ?wellFormed_msgAnalyzing, ?wellFormed_msgCameraNotReady,
       ?wellFormed_msgInferenceFailed, ?wellFormed_msgCameraDenied,
       ?wellFormed_msgCameraUnsupported).

(** ** Frame lemmas: what the speech functions leave alone *)

Lemma speechOnly_refl s : speechOnly s s.
Proof. unfold speechOnly; repeat split; reflexivity. Qed.

Lemma speechOnly_trans s1 s2 s3 :
  speechOnly s1 s2 -> speechOnly s2 s3 -> speechOnly s1 s3.
Proof.
  unfold speechOnly; intros H12 H23.
  decompose [and] H12; decompose [and] H23.
  repeat split; congruence.
Qed.

Lemma sameCycle_refl s : sameCycle s s.
Proof. unfold sameCycle; repeat split; reflexivity. Qed.

Lemma sameCycle_trans s1 s2 s3 :
  sameCycle s1 s2 -> sameCycle s2 s3 -> sameCycle s1 s3.
Proof.
  unfold sameCycle; intros H12 H23.
  decompose [and] H12; decompose [and] H23.
  repeat split; congruence.
Qed.

Lemma speechOnly_sameCycle s s' : speechOnly s s' -> sameCycle s s'.
Proof. unfold speechOnly, sameCycle. intuition. Qed.

Lemma speakLocally_completes v text s :
  completion (speakLocally v text) s = Normal tt.
Proof.
  break_state s. run_js.
  destruct (Js.falsy text); [reflexivity|]. split_ifs; reflexivity.
Qed.

Lemma speak_completes v text s :
  Js.isWellFormed text = true ->
  completion (speak v text) s = Normal tt.
Proof.
  intros Hw. break_state s. run_js. rewrite Hw. run_js.
  destruct (Js.falsy text); [reflexivity|]. split_ifs; reflexivity.
Qed.

Lemma speakLocally_speechOnly v text s :
  speechOnly s (exec (speakLocally v text) s).
Proof.
  break_state s. unfold speechOnly. run_js.
  destruct (Js.falsy text); run_js; [frame|]. split_ifs; frame.
Qed.

Lemma speak_speechOnly v text s :
  speechOnly s (exec (speak v text) s).
Proof.
  break_state s. unfold speechOnly. run_js.
  destruct (Js.falsy text); run_js; [frame|]. split_ifs; frame.
Qed.

(** With the audio element at hand [speak] does not reach the local
    synthesizer, so it cannot write the error text. *)
Lemma speak_keeps_error v text s :
  audioRef (refs s) = true ->
  error (react (exec (speak v text) s)) = error (react s).
Proof.
  break_state s. cbn [refs audioRef]. intros ->. run_js.
  destruct (Js.falsy text); [reflexivity|]. split_ifs; reflexivity.
Qed.

Lemma fireOne_completes h s :
  completion (modify (withAudio (dropListener h)) ;; onErrorHandler h) s
  = Normal tt.
Proof.
  rewrite (completion_bind _ _ s tt) by reflexivity.
  apply speakLocally_completes.
Qed.

Lemma fireOne_speechOnly h s :
  speechOnly s
    (exec (modify (withAudio (dropListener h)) ;; onErrorHandler h) s).
Proof.
  rewrite (exec_bind _ _ s tt) by reflexivity.
  eapply speechOnly_trans; [|apply speakLocally_speechOnly].
  break_state s. unfold speechOnly. run_js. frame.
Qed.

Lemma fireErrorListeners_completes ls : forall s,
  completion (fireErrorListeners ls) s = Normal tt.
Proof.
  unfold fireErrorListeners.
  induction ls as [|h ls IH]; intros s; [reflexivity|].
  cbn [forEach]. rewrite (completion_bind _ _ s tt) by apply fireOne_completes.
  apply IH.
Qed.

Lemma fireErrorListeners_speechOnly ls : forall s,
  speechOnly s (exec (fireErrorListeners ls) s).
Proof.
  unfold fireErrorListeners.
  induction ls as [|h ls IH]; intros s; [apply speechOnly_refl|].
  cbn [forEach]. rewrite (exec_bind _ _ s tt) by apply fireOne_completes.
  eapply speechOnly_trans; [apply fireOne_speechOnly|apply IH].
Qed.

Lemma playCatch_speechOnly h s : speechOnly s (exec (playCatch h) s).
Proof.
  unfold playCatch.
  rewrite (exec_bind _ _ s tt) by reflexivity.
  eapply speechOnly_trans; [|apply speakLocally_speechOnly].
  break_state s. unfold speechOnly. run_js. frame.
Qed.

Lemma playCatch_completes h s : completion (playCatch h) s = Normal tt.
Proof.
  unfold playCatch. rewrite (completion_bind _ _ s tt) by reflexivity.
  apply speakLocally_completes.
Qed.

Lemma takePlay_speechOnly h s : speechOnly s (exec (takePlay h) s).
Proof. break_state s. unfold speechOnly. run_js. frame. Qed.

(** ** One event at a time *)

Lemma dispatch_Click_loading s :
  isLoading (react s) = true -> dispatch s Click = s.
Proof.
  intros H. unfold dispatch, handle, exec, bind, get. cbn. rewrite H.
  reflexivity.
Qed.

Lemma dispatch_AudioError s :
  dispatch s AudioError
  = exec (fireErrorListeners (errorListeners (audio s))) s.
Proof. reflexivity. Qed.

(** An event other than the settling of the inference call, and other
    than a click that starts a cycle, stays in the cycle. *)
Lemma dispatch_sameCycle e s :
  settlesGenerateContent e = false ->
  (e = Click -> isLoading (react s) = true) ->
  sameCycle s (dispatch s e).
Proof.
  intros He Hc. destruct e as [|r| |id ok| |vs|r|rs w h url]; try discriminate.
  - rewrite dispatch_Click_loading by auto. apply sameCycle_refl.
  - rewrite dispatch_AudioError. apply speechOnly_sameCycle,
      fireErrorListeners_speechOnly.
  - unfold dispatch, handle. rewrite (exec_bind _ _ s s) by reflexivity.
    change (exec get s) with s.
    destruct (find _ _) as [c|]; [|apply sameCycle_refl].
    rewrite (exec_bind _ _ s tt) by reflexivity.
    eapply sameCycle_trans;
      [apply speechOnly_sameCycle, takePlay_speechOnly|].
    destruct ok; [apply sameCycle_refl|].
    apply speechOnly_sameCycle, playCatch_speechOnly.
  - break_state s. unfold sameCycle. run_js.
    match goal with |- context [match ?l with [] => _ | _ :: _ => _ end] =>
      destruct l end; run_js; frame.
  - break_state s. unfold sameCycle, loadVoices. run_js. split_ifs.
    + unfold loadVoices. run_js.
      repeat match goal with
        |- context [match find ?f ?l with _ => _ end] =>
          destruct (find f l); run_js
      end; frame.
    + frame.
  - unfold dispatch, handle. rewrite (exec_bind _ _ s s) by reflexivity.
    change (exec get s) with s.
    destruct (pendingGetUserMedia (pending s)); [|apply sameCycle_refl].
    rewrite (exec_bind _ _ s tt) by reflexivity.
    destruct r as [stream|reason].
    + break_state s. unfold sameCycle. run_js. split_ifs; frame.
    + unfold setupCamera_resume, tryCatch, await, throw, bind at 1.
      cbn beta iota.
      match goal with |- sameCycle _ (exec ?m ?s0) =>
        change (sameCycle s
                  (exec (setError msgCameraDenied ;;
                         speak None msgCameraDenied) s0))
      end.
      rewrite (exec_bind _ _ _ tt) by reflexivity.
      eapply sameCycle_trans; [|apply speechOnly_sameCycle, speak_speechOnly].
      break_state s. unfold sameCycle. run_js. frame.
  - break_state s. unfold sameCycle. run_js.
    match goal with |- context [match ?o with Some _ => _ | None => _ end] =>
      destruct o end; run_js; frame.
Qed.


(** ** Runs *)

Lemma run_app es1 es2 s : run (es1 ++ es2) s = run es2 (run es1 s).
Proof. apply fold_left_app. Qed.

Lemma run_cons e es s : run (e :: es) s = run es (dispatch s e).
Proof. reflexivity. Qed.




(** ** The invariant of the mounted component *)

Lemma mount_wellFormed p : wellFormed (mount p).
Proof.
  destruct p as [vs md th c2 url].
  unfold wellFormed, mount, effect, initial, loadVoices, attached.
  run_js.
  repeat match goal with
    |- context [match find ?f ?l with _ => _ end] =>
      destruct (find f l); run_js
  end.
  all: destruct md; js.
  all: split; reflexivity.
Qed.

Lemma dispatch_wellFormed e s : wellFormed s -> wellFormed (dispatch s e).
Proof.
  intros [Hr Hp].
  assert (Hkeep : sameCycle s (dispatch s e) -> wellFormed (dispatch s e)).
  { intros (Hr' & Hl' & _ & Hp' & _). split; [congruence|].
    rewrite Hl', Hp'. exact Hp. }
  destruct e as [|r| |id ok| |vs|r|rs w h url];
    try (apply Hkeep, dispatch_sameCycle; [reflexivity|discriminate]).
  - destruct (isLoading (react s)) eqn:Hl.
    + apply Hkeep, dispatch_sameCycle; auto.
    + break_state s. cbn in Hr, Hl, Hp.
      unfold attached in Hr. injection Hr as -> -> ->. subst.
      unfold wellFormed, attached. js.
      match goal with |- context [(2 <=? ?n)%nat] => destruct (2 <=? n)%nat end;
        js.
      * split_ifs; split; try reflexivity. eexists; reflexivity.
      * split; reflexivity.
  - destruct (isLoading (react s)) eqn:Hl.
    + destruct Hp as [v Hp]. break_state s. cbn in Hr, Hl, Hp.
      unfold attached in Hr. injection Hr as -> -> ->. subst.
      unfold wellFormed, attached.
      destruct r as [text|reason]; js.
      * destruct (Js.falsy text); js; split_ifs; js; split; reflexivity.
      * split; reflexivity.
    + break_state s. cbn in Hr, Hl, Hp. subst.
      unfold wellFormed. js. split; [exact Hr|reflexivity].
Qed.

Lemma run_wellFormed es : forall s, wellFormed s -> wellFormed (run es s).
Proof.
  induction es as [|e es IH]; intros s H; [exact H|].
  rewrite run_cons. apply IH, dispatch_wellFormed, H.
Qed.

Lemma reachable_wellFormed s : reachable s -> wellFormed s.
Proof.
  intros (p & es & ->). apply run_wellFormed, mount_wellFormed.
Qed.

Lemma reachable_dispatch s e : reachable s -> reachable (dispatch s e).
Proof.
  intros (p & es & ->). exists p, (es ++ [e]). now rewrite run_app.
Qed.

Lemma reachable_run s es : reachable s -> reachable (run es s).
Proof.
  intros (p & es0 & ->). exists p, (es0 ++ es). now rewrite run_app.
Qed.

(** X4: in every state the mounted component reaches, an inference call is
    pending only while the flag is set. *)
Lemma in_flight_flag s :
  reachable s ->
  pendingGenerateContent (pending s) <> [] -> isLoading (react s) = true.
Proof.
  intros Hs Hp. destruct (reachable_wellFormed s Hs) as [_ H].
  destruct (isLoading (react s)); [reflexivity|contradiction].
Qed.

(** ** The two halves of a cycle *)



(** The inference call settles with any text: the cycle ends. *)
Lemma resume_fulfilled_ends s v rest text :
  refs s = attached ->
  pendingGenerateContent (pending s) = v :: rest ->
  let s2 := dispatch s (GenerateContentSettled (Fulfilled text)) in
  isLoading (react s2) = false /\
  pendingGenerateContent (pending s2) = rest.
Proof.
  intros Hr Hp. break_state s. cbn in Hr, Hp.
  unfold attached in Hr. injection Hr as -> -> ->. subst. js.
  destruct (Js.falsy text); js; split_ifs; js; split; reflexivity.
Qed.

(** The inference call fails. *)
Lemma resume_rejected s v rest reason :
  refs s = attached ->
  pendingGenerateContent (pending s) = v :: rest ->
  let s2 := dispatch s (GenerateContentSettled (Rejected reason)) in
  description (react s2) = description (react s) /\
  error (react s2) = msgInferenceFailed /\
  isLoading (react s2) = false /\
  pendingGenerateContent (pending s2) = rest /\
  completion (handle (GenerateContentSettled (Rejected reason))) s = Normal tt /\
  exists t, trace s2 = trace s ++ t /\
    speakCalls t = [msgInferenceFailed] /\ speakLocallyCalls t = [] /\
    generateContentCalls t = [].
Proof.
  intros Hr Hp. break_state s. cbn in Hr, Hp.
  unfold attached in Hr. injection Hr as -> -> ->. subst. js.
  repeat split.
  eexists; (split; [rewrite <- !app_assoc; cbn [app]; reflexivity|]);
    repeat split.
Qed.


(** ** Teardown *)

Lemma stopAll_sameButTrace (stream : MediaStream) : forall s,
  completion (forEach stream (fun _ => emit TrackStop)) s = Normal tt /\
  sameButTrace s (exec (forEach stream (fun _ => emit TrackStop)) s).
Proof.
  induction stream as [|t stream IH]; intros s.
  - unfold sameButTrace. repeat split.
  - cbn [forEach].
    rewrite (completion_bind _ _ s tt), (exec_bind _ _ s tt) by reflexivity.
    destruct (IH (exec (emit TrackStop) s)) as [C F]. split; [exact C|].
    unfold sameButTrace in *. decompose [and] F.
    break_state s. repeat split; assumption.
Qed.

Lemma liveTracks_ended (stream : MediaStream) :
  length (filter (fun t => match t with Live => true | Ended => false end)
            (map (fun _ => Ended) stream)) = 0.
Proof. induction stream as [|t stream IH]; [reflexivity|exact IH]. Qed.

Lemma stopTracks_completes stream s :
  completion (stopTracks stream) s = Normal tt.
Proof.
  unfold stopTracks.
  rewrite (completion_bind _ _ s tt) by apply stopAll_sameButTrace.
  reflexivity.
Qed.

Lemma stopTracks_stops stream s :
  liveTracks (exec (stopTracks stream) s) = 0.
Proof.
  unfold stopTracks.
  rewrite (exec_bind _ _ s tt) by apply stopAll_sameButTrace.
  unfold liveTracks. cbn. apply liveTracks_ended.
Qed.

(** What the last two statements of the cleanup do. *)
Lemma cancel_and_deregister s :
  let s1 := exec (synthCancel ;;
                  modify (withSynth (fun y =>
                    {| onvoiceschanged := false; queue := queue y;
                       utterances := utterances y |}))) s in
  video s1 = video s /\ queue (speechSynthesis s1) = [] /\
  onvoiceschanged (speechSynthesis s1) = false.
Proof. break_state s. run_js. repeat split. Qed.

(** X3: run while [videoRef] still points to the video element, the
    cleanup stops every track of the stream, cancels speech and removes
    the voice-list callback. *)
Lemma cleanup_stops_tracks s :
  videoRef (refs s) = true ->
  let s1 := exec cleanup s in
  liveTracks s1 = 0 /\ queue (speechSynthesis s1) = [] /\
  onvoiceschanged (speechSynthesis s1) = false.
Proof.
  intros Hv. unfold cleanup. cbv zeta.
  rewrite (exec_bind _ _ s s) by reflexivity. change (exec get s) with s.
  rewrite Hv. destruct (srcObject (video s)) as [stream|] eqn:E.
  - rewrite (exec_bind _ _ s tt) by apply stopTracks_completes.
    destruct (cancel_and_deregister (exec (stopTracks stream) s))
      as (V & Q & O).
    split; [|split; [exact Q|exact O]].
    pose proof (stopTracks_stops stream s) as L.
    unfold liveTracks in *. rewrite V. exact L.
  - rewrite (exec_bind _ _ s tt) by reflexivity. change (exec (ret tt) s) with s.
    destruct (cancel_and_deregister s) as (V & Q & O).
    split; [|split; [exact Q|exact O]].
    unfold liveTracks. rewrite V, E. reflexivity.
Qed.

(** Run at unmount, after the refs were detached, the cleanup leaves the
    video element and its stream as they are. *)
Lemma unmount_keeps_tracks s :
  let s1 := exec unmount s in
  video s1 = video s /\ queue (speechSynthesis s1) = [] /\
  onvoiceschanged (speechSynthesis s1) = false.
Proof. break_state s. run_js. repeat split. Qed.

(** ** No handler lets an exception escape *)

Lemma captureAndDescribe_completes loading v s :
  completion (captureAndDescribe loading v) s = Normal tt.
Proof.
  break_state s. destruct loading; [reflexivity|].
  js. split_ifs; js; split_ifs; reflexivity.
Qed.

Lemma captureAndDescribe_resume_completes v r s :
  completion (captureAndDescribe_resume v r) s = Normal tt.
Proof.
  break_state s. destruct r as [text|reason]; js.
  - destruct (Js.falsy text); js; split_ifs; js; reflexivity.
  - split_ifs; reflexivity.
Qed.

(** X1: whatever the event and the state, its handler completes
    normally. *)
Lemma handle_completes e s : completion (handle e) s = Normal tt.
Proof.
  unfold handle. rewrite (completion_bind _ _ s s) by reflexivity.
  change (exec get s) with s.
  destruct e as [|r| |id ok| |vs|r|rs w h url].
  - apply captureAndDescribe_completes.
  - destruct (pendingGenerateContent (pending s)); [reflexivity|].
    rewrite (completion_bind _ _ s tt) by reflexivity.
    apply captureAndDescribe_resume_completes.
  - apply fireErrorListeners_completes.
  - destruct (find _ _); [|reflexivity].
    rewrite (completion_bind _ _ s tt) by reflexivity.
    destruct ok; [reflexivity|apply playCatch_completes].
  - destruct (utterances (speechSynthesis s)); reflexivity.
  - rewrite (completion_bind _ _ s tt) by reflexivity.
    destruct (onvoiceschanged (speechSynthesis s)); [|reflexivity].
    unfold loadVoices.
    rewrite (completion_bind _ _ _ (exec (modify _) s)) by reflexivity.
    cbv zeta. repeat destruct (find _ _); reflexivity.
  - destruct (pendingGetUserMedia (pending s)); [|reflexivity].
    rewrite (completion_bind _ _ s tt) by reflexivity.
    break_state s. destruct r as [stream|reason]; js; split_ifs; reflexivity.
  - destruct (srcObject (video s)); reflexivity.
Qed.

Lemma cleanup_witness :
  let s1 := exec cleanup demoReady in
  liveTracks s1 = 0 /\ queue (speechSynthesis s1) = [] /\
  onvoiceschanged (speechSynthesis s1) = false.
Proof. apply (cleanup_stops_tracks demoReady). reflexivity. Defined.

Lemma in_flight_witness : isLoading (react demoInFlight) = true.
Proof.
  apply (in_flight_flag demoInFlight).
  - apply reachable_dispatch. exists demoPlatform. eexists. reflexivity.
  - discriminate.
Defined.

(** ** The error written while an inference call is pending *)








(** * The claims *)

(** C1: while a cycle is in flight (the flag [isLoading] is set), a
    trigger of [captureAndDescribe], and so any sequence of triggers,
    leaves the whole state as it is: no call of [generateContent] is
    added to the trace, and the description, the error and the flag keep
    their values. *)
Theorem C1_trigger_ignored_while_in_flight :
  forall s, isLoading (react s) = true ->
  forall n, run (repeat Click n) s = s.
Proof.
  intros s Hl n. induction n as [|n IH]; [reflexivity|].
  cbn [repeat]. rewrite run_cons, dispatch_Click_loading by exact Hl.
  exact IH.
Qed.

Lemma C1_witness :
  isLoading (react demoInFlight) = true /\
  run (repeat Click 3) demoInFlight = demoInFlight.
Proof.
  split; [reflexivity|].
  apply (C1_trigger_ignored_while_in_flight demoInFlight); reflexivity.
Defined.








(** C5: [speak] called with the empty text returns at once: every field
    of the state is kept, the trace gains only the record of the call, and
    no call reaches the audio element or the synthesizer.  The same holds
    for [speakLocally]. *)
Theorem C5_speak_empty_is_noop :
  forall v s,
  let s1 := exec (speak v "") s in
  let s2 := exec (speakLocally v "") s in
  (sameButTrace s s1 /\
   trace s1 = trace s ++ [CallSpeak ""] /\
   filter backendCall (trace s1) = filter backendCall (trace s)) /\
  (sameButTrace s s2 /\
   trace s2 = trace s ++ [CallSpeakLocally ""] /\
   filter backendCall (trace s2) = filter backendCall (trace s)).
Proof.
  intros v s. break_state s. unfold sameButTrace. run_js.
  change (Js.falsy "") with true. run_js.
  repeat split; rewrite filter_app; cbn [filter backendCall];
    apply app_nil_r.
Qed.

(** C6, evaluated on the code: one call of [speak] whose audio clip fails
    to load.  The audio element raises [error], which runs the listener of
    the attempt, and the promise of [play] is rejected, which runs the
    [catch] handler; each of them calls [speakLocally] with the text of
    the attempt, so the fallback runs twice for the one attempt. *)
Theorem C6_fallback_runs_twice :
  let s1 := demoInFlight in
  let s2 := run [AudioError; PlaySettled 0 false] s1 in
  speakCalls (trace s1) = [msgAnalyzing] /\
  errorListeners (audio s1) = [demoAttempt] /\
  pendingPlay (pending s1) = [demoAttempt] /\
  speakLocallyCalls (trace s1) = [] /\
  speakLocallyCalls (trace (dispatch s1 AudioError)) = [msgAnalyzing] /\
  speakLocallyCalls (trace s2) = [msgAnalyzing; msgAnalyzing].
Proof. vm_compute. repeat split. Qed.

(** A listener whose clip played stays on the audio element: when the
    clip of a later attempt fails, the listeners of all earlier attempts
    run as well, each with its own text. *)
Lemma error_listeners_outlive_their_attempt :
  let s := demoSecondCycle in
  map closureText (errorListeners (audio s))
  = [msgAnalyzing; demoText; msgAnalyzing] /\
  map closureText (pendingPlay (pending s)) = [msgAnalyzing] /\
  speakLocallyCalls (trace s) = [] /\
  speakLocallyCalls (trace (dispatch s AudioError))
  = [msgAnalyzing; demoText; msgAnalyzing].
Proof. vm_compute. repeat split. Qed.

(** C7: in every state the mounted component reaches, the description
    box shows the description when it is not empty and the error
    otherwise, so it never shows both. *)
Theorem C7_description_box_shows_one :
  forall p es,
  let s := run es (mount p) in
  (description (react s) <> "" -> descriptionBox s = description (react s)) /\
  (description (react s) = "" -> descriptionBox s = error (react s)) /\
  (descriptionBox s = description (react s) \/
   descriptionBox s = error (react s)).
Proof.
  intros p es s. unfold descriptionBox, Js.or.
  destruct (Js.falsy (description (react s))) eqn:H.
  - apply falsy_empty in H. repeat split; auto. congruence.
  - repeat split; auto. intros E. apply falsy_empty in E. congruence.
Qed.


(** C9, evaluated on the code: the camera stream has two live tracks when
    the component is unmounted.  The cleanup cancels speech and removes
    the voice-list callback, but it finds [videoRef] detached and stops no
    track: both are still live afterwards.  Run with the ref attached, the
    same cleanup stops them. *)
Theorem C9_unmount_leaves_tracks_live :
  let s := demoReady in
  let s1 := exec unmount s in
  liveTracks s = 2 /\
  liveTracks s1 = 2 /\
  filter (fun e => match e with TrackStop => true | _ => false end) (trace s1)
  = [] /\
  queue (speechSynthesis s1) = [] /\
  onvoiceschanged (speechSynthesis s1) = false /\
  liveTracks (exec cleanup s) = 0.
Proof. vm_compute. repeat split. Qed.

(** C10: when the camera is ready but the canvas gives no 2D context, the
    cycle ends at once: the flag is cleared, the description and the error
    stay empty, and the trace shows the analysing text handed to the audio
    element and nothing else: no other call of [speak], no request, no
    write of the error after its clearing. *)
Theorem C10_no_context_ends_silently :
  forall s,
  reachable s -> isLoading (react s) = false ->
  cameraReady s = true -> context2d (platform s) = false ->
  let s1 := dispatch s Click in
  isLoading (react s1) = false /\
  description (react s1) = "" /\
  error (react s1) = "" /\
  pendingGenerateContent (pending s1) = [] /\
  trace s1 = trace s ++ cyclePrefix ++
    [SynthCancel; AudioAddErrorListener (nextId s);
     AudioSetSrc (ttsUrl msgAnalyzing); AudioPlay (nextId s);
     SetIsLoading false].
Proof.
  intros s Hs Hl Hc Hx. destruct (reachable_wellFormed s Hs) as [Hr Hp].
  break_state s. cbn in Hr, Hl, Hp, Hc, Hx.
  unfold attached in Hr. injection Hr as -> -> ->.
  rewrite Hl in Hp. subst. revert Hc. unfold cyclePrefix. js.
  split_ifs; [intros _|discriminate]. js.
  repeat split. rewrite <- !app_assoc. reflexivity.
Qed.

Lemma C10_witness :
  let s := demoNoContext in
  let s1 := dispatch s Click in
  isLoading (react s1) = false /\
  description (react s1) = "" /\
  error (react s1) = "" /\
  pendingGenerateContent (pending s1) = [] /\
  trace s1 = trace s ++ cyclePrefix ++
    [SynthCancel; AudioAddErrorListener (nextId s);
     AudioSetSrc (ttsUrl msgAnalyzing); AudioPlay (nextId s);
     SetIsLoading false].
Proof.
  apply (C10_no_context_ends_silently demoNoContext); try reflexivity.
  eexists. eexists. reflexivity.
Defined.

(** * Further properties of the component *)

(** ** The two speech functions *)

(** X5: [speak] with a text that is not empty cancels local speech and
    then takes one of three ways.  With the audio element at hand and a
    text that has no lone surrogate it registers one listener, sets the
    address built from the text, starts playing and returns, and neither
    calls [speakLocally] nor writes hook state.  With the element at hand
    and a text that has a lone surrogate it registers the listener and
    then throws the [URIError] of [encodeURIComponent] at line 64: the
    address of the element is not set, nothing is played and no backend
    speaks the text.  Without the element it calls [speakLocally] with
    the same text, returns, and leaves the audio element and the pending
    [play] promises alone. *)
Theorem speak_uses_one_backend :
  forall v text s,
  Js.falsy text = false ->
  let s1 := exec (speak v text) s in
  if audioRef (refs s)
  then if Js.isWellFormed text
       then completion (speak v text) s = Normal tt /\
            trace s1 = trace s ++
              [CallSpeak text; SynthCancel; AudioAddErrorListener (nextId s);
               AudioSetSrc (ttsUrl text); AudioPlay (nextId s)] /\
            src (audio s1) = ttsUrl text /\
            errorListeners (audio s1)
            = errorListeners (audio s) ++ [attemptOf s v text] /\
            pendingPlay (pending s1)
            = pendingPlay (pending s) ++ [attemptOf s v text] /\
            queue (speechSynthesis s1) = [] /\
            react s1 = react s
       else completion (speak v text) s = Throw "URIError" /\
            trace s1 = trace s ++
              [CallSpeak text; SynthCancel; AudioAddErrorListener (nextId s)] /\
            src (audio s1) = src (audio s) /\
            errorListeners (audio s1)
            = errorListeners (audio s) ++ [attemptOf s v text] /\
            pendingPlay (pending s1) = pendingPlay (pending s) /\
            queue (speechSynthesis s1) = [] /\
            react s1 = react s
  else completion (speak v text) s = Normal tt /\
       (exists t, trace s1 = trace s ++ CallSpeak text :: SynthCancel :: t /\
          speakLocallyCalls t = [text] /\
          filter (fun e => match e with
                           | AudioAddErrorListener _ | AudioSetSrc _
                           | AudioPlay _ => true
                           | _ => false
                           end) t = []) /\
       audio s1 = audio s /\
       pendingPlay (pending s1) = pendingPlay (pending s).
Proof.
  intros v text s Ht. break_state s. unfold attemptOf, ttsUrl. run_js.
  rewrite Ht. run_js. split_ifs.
  all: repeat match goal with
       | |- _ /\ _ => split
       | |- exists _, _ => eexists
       end.
  all: rewrite <- ?app_assoc; cbn [app]; reflexivity.
Qed.

Lemma speak_uses_one_backend_witness :
  let s := demoReady in
  let text := demoLoneSurrogate in
  let s1 := exec (speak None text) s in
  completion (speak None text) s = Throw "URIError" /\
  trace s1 = trace s ++
    [CallSpeak text; SynthCancel; AudioAddErrorListener (nextId s)] /\
  src (audio s1) = src (audio s) /\
  errorListeners (audio s1)
  = errorListeners (audio s) ++ [attemptOf s None text] /\
  pendingPlay (pending s1) = pendingPlay (pending s) /\
  queue (speechSynthesis s1) = [] /\
  react s1 = react s.
Proof.
  apply (speak_uses_one_backend None demoLoneSurrogate demoReady).
  reflexivity.
Defined.

(** X6: [speakLocally] with a text that is not empty cancels what the
    synthesizer holds and queues the one utterance of the text, with the
    voice of the render and the language [id-ID], leaving hook state as it
    is; when the synthesizer throws, nothing is queued, the error becomes
    the fixed text of line 35 and the exception goes no further. *)
Theorem speakLocally_queues_or_reports :
  forall v text s,
  Js.falsy text = false ->
  let s1 := exec (speakLocally v text) s in
  completion (speakLocally v text) s = Normal tt /\
  isLoading (react s1) = isLoading (react s) /\
  description (react s1) = description (react s) /\
  if synthesisThrows (platform s)
  then queue (speechSynthesis s1) = [] /\
       utterances (speechSynthesis s1) = utterances (speechSynthesis s) /\
       error (react s1) = msgSpeechUnavailable
  else queue (speechSynthesis s1) = [utteranceOf v text] /\
       utterances (speechSynthesis s1)
       = utterances (speechSynthesis s) ++ [utteranceOf v text] /\
       utteranceLang (utteranceOf v text) = "id-ID" /\
       error (react s1) = error (react s).
Proof.
  intros v text s Ht. break_state s. unfold utteranceOf. run_js.
  rewrite Ht. run_js. split_ifs; repeat split.
Qed.

Lemma speakLocally_queues_or_reports_witness :
  let s := demoReady in
  let s1 := exec (speakLocally (Some demoVoice) demoText) s in
  completion (speakLocally (Some demoVoice) demoText) s = Normal tt /\
  isLoading (react s1) = isLoading (react s) /\
  description (react s1) = description (react s) /\
  queue (speechSynthesis s1) = [utteranceOf (Some demoVoice) demoText] /\
  utterances (speechSynthesis s1)
  = utterances (speechSynthesis s) ++ [utteranceOf (Some demoVoice) demoText] /\
  utteranceLang (utteranceOf (Some demoVoice) demoText) = "id-ID" /\
  error (react s1) = error (react s).
Proof.
  apply (speakLocally_queues_or_reports (Some demoVoice) demoText demoReady).
  reflexivity.
Defined.

(** ** The error event of the audio element *)

Lemma fireOne_spec h s :
  let s1 := exec (modify (withAudio (dropListener h)) ;; onErrorHandler h) s in
  audio s1 = dropListener h (audio s) /\
  exists t, trace s1 = trace s ++ t /\
    speakLocallyCalls t = [closureText h] /\ speakCalls t = [] /\
    generateContentCalls t = [].
Proof.
  break_state s. destruct h as [id text v]. unfold dropListener. run_js.
  destruct (Js.falsy text); run_js; split_ifs.
  all: split; [reflexivity|]; eexists;
    (split; [rewrite <- ?app_assoc; cbn [app]; reflexivity|]);
    repeat split.
Qed.

Lemma filter_twice {A} (p q : A -> bool) (l : list A) :
  filter q (filter p l) = filter (fun a => p a && q a) l.
Proof.
  induction l as [|a l IH]; [reflexivity|]. cbn [filter].
  destruct (p a); cbn [filter andb]; [destruct (q a)|]; now rewrite IH.
Qed.

Lemma fireErrorListeners_spec ls : forall s,
  let s1 := exec (fireErrorListeners ls) s in
  src (audio s1) = src (audio s) /\
  errorListeners (audio s1)
  = filter (fun l => negb (existsb (sameClosure l) ls))
      (errorListeners (audio s)) /\
  exists t, trace s1 = trace s ++ t /\
    speakLocallyCalls t = map closureText ls /\ speakCalls t = [] /\
    generateContentCalls t = [].
Proof.
  unfold fireErrorListeners.
  induction ls as [|h ls IH]; intros s.
  - cbn. repeat split.
    + induction (errorListeners (audio s)) as [|a l IHl]; [reflexivity|].
      cbn [filter negb]. now rewrite <- IHl.
    + exists []. now rewrite app_nil_r.
  - cbn [forEach]. cbv zeta.
    rewrite (exec_bind _ _ s tt) by apply fireOne_completes.
    destruct (fireOne_spec h s) as (A1 & t1 & T1 & L1 & S1 & G1).
    destruct (IH (exec (modify (withAudio (dropListener h)) ;; onErrorHandler h) s))
      as (A2 & F2 & t2 & T2 & L2 & S2 & G2).
    repeat split.
    + rewrite A2, A1. reflexivity.
    + rewrite F2, A1. unfold dropListener. cbn [errorListeners].
      rewrite filter_twice. apply filter_ext. intros a.
      cbn [existsb]. now rewrite negb_orb.
    + exists (t1 ++ t2). rewrite T2, T1, app_assoc. split; [reflexivity|].
      unfold speakLocallyCalls, speakCalls, generateContentCalls in *.
      rewrite !flat_map_app, L1, L2, S1, S2, G1, G2. repeat split.
Qed.

Lemma filter_all_fired (l m : list Closure) :
  incl l m ->
  filter (fun c => negb (existsb (sameClosure c) m)) l = [].
Proof.
  induction l as [|a l IH]; intros H; [reflexivity|].
  cbn [filter].
  assert (E : existsb (sameClosure a) m = true).
  { apply existsb_exists. exists a. split; [apply H; now left|].
    unfold sameClosure. apply Nat.eqb_refl. }
  rewrite E. cbn [negb]. apply IH. intros x Hx. apply H. now right.
Qed.

(** X7: an [error] event of the audio element calls [speakLocally] once
    for every listener that is registered, in the order of registration
    and each with the text of its own attempt, and leaves no listener
    behind; it calls neither [speak] nor [generateContent]. *)
Theorem audio_error_runs_every_listener :
  forall s,
  let s1 := dispatch s AudioError in
  errorListeners (audio s1) = [] /\
  src (audio s1) = src (audio s) /\
  exists t, trace s1 = trace s ++ t /\
    speakLocallyCalls t = map closureText (errorListeners (audio s)) /\
    speakCalls t = [] /\ generateContentCalls t = [].
Proof.
  intros s s1. subst s1. rewrite dispatch_AudioError.
  destruct (fireErrorListeners_spec (errorListeners (audio s)) s)
    as (A & F & T).
  repeat split; [|exact A|exact T].
  rewrite F. apply filter_all_fired, incl_refl.
Qed.

(** ** The rejection of a [play] promise *)

Lemma dispatch_PlaySettled_found s id h ok :
  find (fun c => (closureId c =? id)%nat) (pendingPlay (pending s)) = Some h ->
  dispatch s (PlaySettled id ok)
  = exec (takePlay h ;; if ok then ret tt else playCatch h) s.
Proof.
  intros H. unfold dispatch, handle.
  rewrite (exec_bind _ _ s s) by reflexivity.
  change (exec get s) with s. rewrite H. reflexivity.
Qed.

Lemma rejection_spec h s :
  let s1 := exec (takePlay h ;; playCatch h) s in
  audio s1 = dropListener h (audio s) /\
  pendingPlay (pending s1)
  = filter (fun c => negb (sameClosure c h)) (pendingPlay (pending s)) /\
  exists t, trace s1 = trace s ++ t /\
    speakLocallyCalls t = [closureText h] /\ speakCalls t = [] /\
    generateContentCalls t = [].
Proof.
  break_state s. destruct h as [id text v]. unfold dropListener. run_js.
  destruct (Js.falsy text); run_js; split_ifs.
  all: split; [reflexivity|]; split; [reflexivity|]; eexists;
    (split; [rewrite <- ?app_assoc; cbn [app]; reflexivity|]);
    repeat split.
Qed.

Lemma find_after_filter (l : list Closure) (h : Closure) :
  find (fun c => (closureId c =? closureId h)%nat)
    (filter (fun c => negb (sameClosure c h)) l) = None.
Proof.
  unfold sameClosure. induction l as [|a l IH]; [reflexivity|].
  cbn [filter]. destruct (closureId a =? closureId h)%nat eqn:E;
    cbn [negb]; [exact IH|].
  cbn [find]. rewrite E. exact IH.
Qed.

(** X2: when the promise of a [play] call that is pending is rejected,
    the fallback runs once, with the text of that attempt, and calls
    neither [speak] nor [generateContent]; the listener of the attempt is
    taken off the audio element and the listeners of other attempts stay;
    the promise is no longer pending.  An [error] event that comes later
    calls [speakLocally] for the listeners that stayed, not again for
    this attempt. *)
Theorem rejection_alone_falls_back_once :
  forall s id h,
  find (fun c => (closureId c =? id)%nat) (pendingPlay (pending s)) = Some h ->
  let s2 := dispatch s (PlaySettled id false) in
  let s3 := dispatch s2 AudioError in
  let others :=
    filter (fun l => negb (sameClosure l h)) (errorListeners (audio s)) in
  (exists t, trace s2 = trace s ++ t /\
     speakLocallyCalls t = [closureText h] /\ speakCalls t = [] /\
     generateContentCalls t = []) /\
  errorListeners (audio s2) = others /\
  (forall l, In l others -> closureId l <> id) /\
  find (fun c => (closureId c =? id)%nat) (pendingPlay (pending s2)) = None /\
  (exists t, trace s3 = trace s2 ++ t /\
     speakLocallyCalls t = map closureText others).
Proof.
  intros s id h Hfind s2 s3 others.
  assert (Hid : closureId h = id).
  { apply find_some in Hfind as [_ E]. now apply Nat.eqb_eq in E. }
  assert (E2 : s2 = exec (takePlay h ;; playCatch h) s)
    by (apply dispatch_PlaySettled_found; exact Hfind).
  destruct (rejection_spec h s) as (A & P & T). rewrite <- E2 in A, P, T.
  assert (L2 : errorListeners (audio s2) = others) by (now rewrite A).
  split; [exact T|]. split; [exact L2|]. split; [|split].
  - intros l Hl. apply filter_In in Hl as [_ Hl]. unfold sameClosure in Hl.
    rewrite <- Hid. intros E. rewrite E, Nat.eqb_refl in Hl. discriminate.
  - rewrite P, <- Hid. apply find_after_filter.
  - subst s3. rewrite dispatch_AudioError.
    destruct (fireErrorListeners_spec (errorListeners (audio s2)) s2)
      as (_ & _ & t & Ht & Hs & _).
    exists t. split; [exact Ht|]. rewrite Hs, L2. reflexivity.
Qed.

Lemma rejection_alone_witness :
  let s := demoSecondCycle in
  let h := demoSecondAttempt in
  let s2 := dispatch s (PlaySettled 2 false) in
  let s3 := dispatch s2 AudioError in
  let others :=
    filter (fun l => negb (sameClosure l h)) (errorListeners (audio s)) in
  (exists t, trace s2 = trace s ++ t /\
     speakLocallyCalls t = [closureText h] /\ speakCalls t = [] /\
     generateContentCalls t = []) /\
  errorListeners (audio s2) = others /\
  (forall l, In l others -> closureId l <> 2) /\
  find (fun c => (closureId c =? 2)%nat) (pendingPlay (pending s2)) = None /\
  (exists t, trace s3 = trace s2 ++ t /\
     speakLocallyCalls t = map closureText others).
Proof.
  apply (rejection_alone_falls_back_once demoSecondCycle 2 demoSecondAttempt).
  vm_compute. reflexivity.
Defined.

Lemma speakLocally_keeps_audio v text s :
  audio (exec (speakLocally v text) s) = audio s.
Proof.
  break_state s. run_js. destruct (Js.falsy text); run_js; split_ifs;
    reflexivity.
Qed.

Ltac keep_listener :=
  cbn [errorListeners]; rewrite ?in_app_iff; auto.

(** X8: a listener stays on the audio element until an [error] event
    runs it or the promise of its own [play] call is rejected: no other
    event removes it, so the listener of a clip that played is still
    registered when later clips are started. *)
Theorem listeners_outlive_playback :
  forall s e h,
  In h (errorListeners (audio s)) ->
  e <> AudioError ->
  (forall id, e = PlaySettled id false -> closureId h <> id) ->
  In h (errorListeners (audio (dispatch s e))).
Proof.
  intros s e h Hin Hne Hid.
  destruct e as [|r| |id ok| |vs|r|rs w hh url].
  - break_state s. cbn [audio errorListeners] in Hin.
    match goal with |- context [{| isLoading := ?b |}] => destruct b end.
    + exact Hin.
    + js. split_ifs; js; split_ifs; keep_listener.
  - break_state s. cbn [audio errorListeners] in Hin.
    match goal with
    | |- context [{| pendingGenerateContent := ?l |}] => destruct l
    end; [exact Hin|].
    destruct r as [text|reason]; js.
    + destruct (Js.falsy text); js; split_ifs; js; keep_listener.
    + split_ifs; keep_listener.
  - contradiction.
  - unfold dispatch, handle. rewrite (exec_bind _ _ s s) by reflexivity.
    change (exec get s) with s.
    destruct (find _ _) as [c|] eqn:F; [|exact Hin].
    apply find_some in F as [_ F]. apply Nat.eqb_eq in F.
    rewrite (exec_bind _ _ s tt) by reflexivity.
    destruct ok.
    + break_state s. exact Hin.
    + unfold playCatch. rewrite (exec_bind _ _ _ tt) by reflexivity.
      rewrite speakLocally_keeps_audio.
      break_state s. cbn [audio errorListeners] in Hin.
      unfold dropListener. run_js. apply filter_In. split; [exact Hin|].
      unfold sameClosure. apply negb_true_iff, Nat.eqb_neq.
      rewrite F. apply Hid. reflexivity.
  - break_state s. cbn [audio errorListeners] in Hin. run_js.
    match goal with |- context [match ?l with [] => _ | _ :: _ => _ end] =>
      destruct l end; exact Hin.
  - break_state s. cbn [audio errorListeners] in Hin.
    unfold loadVoices. run_js. split_ifs; [|exact Hin].
    unfold loadVoices. run_js.
    repeat match goal with
      |- context [match find ?f ?l with _ => _ end] =>
        destruct (find f l); run_js
    end; exact Hin.
  - break_state s. cbn [audio errorListeners] in Hin.
    match goal with
    | |- context [{| pendingGetUserMedia := ?b |}] => destruct b
    end; [|exact Hin].
    destruct r as [stream|reason]; js; split_ifs; keep_listener.
  - break_state s. cbn [audio errorListeners] in Hin. run_js.
    match goal with |- context [match ?o with Some _ => _ | None => _ end] =>
      destruct o end; exact Hin.
Qed.

Lemma listeners_outlive_playback_witness :
  In demoAttempt
    (errorListeners (audio (dispatch demoInFlight (PlaySettled 0 true)))).
Proof.
  apply (listeners_outlive_playback demoInFlight (PlaySettled 0 true)
           demoAttempt).
  - vm_compute. left. reflexivity.
  - discriminate.
  - intros id H. discriminate H.
Defined.

(** ** What every reachable state satisfies *)

Lemma tidyStep_refl s : tidyStep s s.
Proof. unfold tidyStep. auto. Qed.

Lemma tidyStep_trans s1 s2 s3 :
  tidyStep s1 s2 -> tidyStep s2 s3 -> tidyStep s1 s3.
Proof.
  unfold tidyStep. intros (Q1 & E1 & V1 & O1) (Q2 & E2 & V2 & O2).
  repeat split.
  - destruct Q2 as [->|]; auto.
  - destruct E2 as [->|]; auto.
  - destruct V2 as [->|]; auto.
  - congruence.
Qed.

Lemma tidy_step s s' : tidy s -> tidyStep s s' -> tidy s'.
Proof.
  unfold tidy, tidyStep. intros (Q & E & V & O) (Q1 & E1 & V1 & O1).
  repeat split.
  - destruct Q1 as [->|]; auto.
  - destruct E1 as [->|]; auto.
  - destruct V1 as [->|(w & -> & W)]; auto.
    intros v H. injection H as <-. exact W.
  - congruence.
Qed.

Ltac tidy_done :=
  unfold tidyStep, fixedMessages; run_js; repeat split;
  first [ left; reflexivity
        | right; cbn [length]; lia
        | right; cbn [In]; auto 10 ].

Lemma speakLocally_tidyStep v text s :
  tidyStep s (exec (speakLocally v text) s).
Proof.
  break_state s. run_js. destruct (Js.falsy text); run_js; split_ifs;
    tidy_done.
Qed.

Lemma speak_tidyStep v text s : tidyStep s (exec (speak v text) s).
Proof.
  break_state s. run_js. destruct (Js.falsy text); run_js; split_ifs;
    tidy_done.
Qed.

Lemma fireErrorListeners_tidyStep ls : forall s,
  tidyStep s (exec (fireErrorListeners ls) s).
Proof.
  unfold fireErrorListeners.
  induction ls as [|h ls IH]; intros s; [apply tidyStep_refl|].
  cbn [forEach]. rewrite (exec_bind _ _ s tt) by apply fireOne_completes.
  eapply tidyStep_trans; [|apply IH].
  rewrite (exec_bind _ _ s tt) by reflexivity.
  eapply tidyStep_trans; [|apply speakLocally_tidyStep].
  break_state s. tidy_done.
Qed.

Lemma indonesianVoice_sound vs v :
  indonesianVoice vs = Some v -> In v vs /\ isIndonesian v = true.
Proof.
  unfold indonesianVoice, isIndonesian.
  destruct (find (fun v => (lang v =? "id-ID")%string) vs) as [w|] eqn:E.
  - intros H. injection H as <-. apply find_some in E as [I E].
    apply String.eqb_eq in E. split; [exact I|]. now rewrite E.
  - intros H. now apply find_some in H.
Qed.

Lemma loadVoices_unfold s :
  exec loadVoices s
  = match indonesianVoice (getVoices (platform s)) with
    | Some v => exec (setVoice v) s
    | None => s
    end.
Proof.
  unfold loadVoices, indonesianVoice, exec, bind, get. cbn.
  destruct (find _ _); [reflexivity|]. destruct (find _ _); reflexivity.
Qed.

Lemma loadVoices_tidyStep s : tidyStep s (exec loadVoices s).
Proof.
  rewrite loadVoices_unfold.
  destruct (indonesianVoice _) as [v|] eqn:E; [|apply tidyStep_refl].
  apply indonesianVoice_sound in E as [_ E].
  break_state s. unfold tidyStep. run_js. repeat split; auto.
  right. eexists. split; [reflexivity|exact E].
Qed.

Lemma dispatch_tidyStep e s : tidyStep s (dispatch s e).
Proof.
  destruct e as [|r| |id ok| |vs|r|rs w hh url].
  - break_state s.
    match goal with |- context [{| isLoading := ?b |}] => destruct b end.
    + apply tidyStep_refl.
    + js. split_ifs; js; split_ifs; tidy_done.
  - break_state s.
    match goal with
    | |- context [{| pendingGenerateContent := ?l |}] => destruct l
    end; [apply tidyStep_refl|].
    destruct r as [text|reason]; js.
    + destruct (Js.falsy text); js; split_ifs; js; tidy_done.
    + split_ifs; tidy_done.
  - rewrite dispatch_AudioError. apply fireErrorListeners_tidyStep.
  - unfold dispatch, handle. rewrite (exec_bind _ _ s s) by reflexivity.
    change (exec get s) with s.
    destruct (find _ _) as [c|]; [|apply tidyStep_refl].
    rewrite (exec_bind _ _ s tt) by reflexivity.
    destruct ok.
    + break_state s. tidy_done.
    + unfold playCatch. rewrite (exec_bind _ _ _ tt) by reflexivity.
      eapply tidyStep_trans; [|apply speakLocally_tidyStep].
      break_state s. tidy_done.
  - break_state s. run_js.
    match goal with |- context [match ?l with [] => _ | _ :: _ => _ end] =>
      destruct l end; tidy_done.
  - unfold dispatch, handle. rewrite (exec_bind _ _ s s) by reflexivity.
    change (exec get s) with s.
    rewrite (exec_bind _ _ s tt) by reflexivity.
    destruct (onvoiceschanged (speechSynthesis s)).
    + eapply tidyStep_trans; [|apply loadVoices_tidyStep].
      break_state s. tidy_done.
    + break_state s. tidy_done.
  - break_state s.
    match goal with
    | |- context [{| pendingGetUserMedia := ?b |}] => destruct b
    end; [|apply tidyStep_refl].
    destruct r as [stream|reason]; js; split_ifs; tidy_done.
  - break_state s. run_js.
    match goal with |- context [match ?o with Some _ => _ | None => _ end] =>
      destruct o end; tidy_done.
Qed.

Lemma setupCamera_tidyStep s : tidyStep s (exec setupCamera s).
Proof. break_state s. js. split_ifs; tidy_done. Qed.

Lemma mount_tidy p : tidy (mount p).
Proof.
  unfold mount, effect.
  rewrite (exec_bind _ _ _ tt) by reflexivity.
  set (s0 := exec (modify _) (initial p)).
  assert (L : completion loadVoices s0 = Normal tt).
  { unfold loadVoices, completion, bind, get. cbn.
    destruct (find _ _); [reflexivity|]. destruct (find _ _); reflexivity. }
  rewrite (exec_bind _ _ _ tt) by exact L.
  assert (T0 : tidy s0).
  { subst s0. destruct p. unfold tidy, initial, fixedMessages. run_js.
    repeat split; [cbn; lia|now left|discriminate]. }
  assert (T1 : tidy (exec loadVoices s0))
    by (eapply tidy_step; [exact T0|apply loadVoices_tidyStep]).
  eapply tidy_step; [exact T1|apply setupCamera_tidyStep].
Qed.

Lemma reachable_tidy s : reachable s -> tidy s.
Proof.
  intros (p & es & ->). generalize (mount_tidy p). generalize (mount p).
  induction es as [|e es IH]; intros s H; [exact H|].
  rewrite run_cons. apply IH. eapply tidy_step; [exact H|].
  apply dispatch_tidyStep.
Qed.

(** X9: in every state the mounted component reaches, the local
    synthesizer holds at most one utterance: every speech call cancels
    what is queued before it adds its own, so utterances never queue up. *)
Theorem local_speech_never_queues :
  forall p es,
  length (queue (speechSynthesis (run es (mount p)))) <= 1.
Proof.
  intros p es.
  assert (R : reachable (run es (mount p))) by (exists p, es; reflexivity).
  apply reachable_tidy in R. apply R.
Qed.

(** X10: in every state the mounted component reaches, the error is empty
    or one of the six fixed texts of the source: the reason of a rejected
    promise or of an exception is never shown. *)
Theorem error_is_a_fixed_text :
  forall p es,
  In (error (react (run es (mount p)))) fixedMessages.
Proof.
  intros p es.
  assert (R : reachable (run es (mount p))) by (exists p, es; reflexivity).
  apply reachable_tidy in R. apply R.
Qed.

(** X11: in every state the mounted component reaches, a selected voice
    has a language tag that starts with [id]. *)
Theorem selected_voice_is_indonesian :
  forall p es,
  match voice (react (run es (mount p))) with
  | Some v => Js.startsWith (lang v) "id" = true
  | None => True
  end.
Proof.
  intros p es.
  assert (R : reachable (run es (mount p))) by (exists p, es; reflexivity).
  apply reachable_tidy in R. destruct R as (_ & _ & V & _).
  destruct (voice _) as [v|]; [|exact I]. apply (V v). reflexivity.
Qed.

(** X12: in every state the mounted component reaches, at most one
    inference call is pending, and the flag is set only while one is: the
    button is never left disabled with nothing to wait for. *)
Theorem one_inference_call_at_a_time :
  forall p es,
  let s := run es (mount p) in
  length (pendingGenerateContent (pending s)) <= 1 /\
  (if isLoading (react s)
   then pendingGenerateContent (pending s) <> []
   else pendingGenerateContent (pending s) = []).
Proof.
  intros p es s.
  assert (R : reachable s) by (exists p, es; reflexivity).
  destruct (reachable_wellFormed s R) as [_ H].
  destruct (isLoading (react s)).
  - destruct H as [v ->]. split; [cbn; lia|discriminate].
  - rewrite H. split; [cbn; lia|reflexivity].
Qed.

(** X13: whenever the promise of an inference call settles, with a text
    or with a failure and after any events, the component is idle
    afterwards: the flag is cleared and no call is pending. *)
Theorem idle_after_settling :
  forall p es r,
  let s1 := dispatch (run es (mount p)) (GenerateContentSettled r) in
  isLoading (react s1) = false /\ pendingGenerateContent (pending s1) = [].
Proof.
  intros p es r s1.
  assert (R : reachable s1).
  { apply reachable_dispatch. exists p, es. reflexivity. }
  assert (R0 : reachable (run es (mount p))) by (exists p, es; reflexivity).
  destruct (reachable_wellFormed _ R0) as [Hr Hp].
  destruct (isLoading (react (run es (mount p)))) eqn:Hl.
  - destruct Hp as [v Hp]. destruct r as [text|reason].
    + exact (resume_fulfilled_ends _ v [] text Hr Hp).
    + destruct (resume_rejected _ v [] reason Hr Hp) as (_ & _ & L & P & _).
      split; assumption.
  - subst s1. unfold dispatch, handle.
    rewrite (exec_bind _ _ _ (run es (mount p))) by reflexivity.
    change (exec get (run es (mount p))) with (run es (mount p)).
    rewrite Hp. change (exec (ret tt) ?x) with x. split; assumption.
Qed.

(** X14: only a click and the settling of the inference call write the
    description or the flag: a speech failure, a camera answer, a voice
    announcement or a video event leaves both as they are and sends no
    request. *)
Theorem description_survives_other_events :
  forall s e,
  e <> Click -> settlesGenerateContent e = false ->
  let s1 := dispatch s e in
  description (react s1) = description (react s) /\
  isLoading (react s1) = isLoading (react s) /\
  generateContentCalls (trace s1) = generateContentCalls (trace s).
Proof.
  intros s e Hc Hs s1.
  destruct (dispatch_sameCycle e s Hs) as (_ & L & D & _ & G).
  - intros ->. contradiction.
  - repeat split; assumption.
Qed.

Lemma description_survives_other_events_witness :
  let s := demoInFlight in
  let s1 := dispatch s UtteranceError in
  description (react s1) = description (react s) /\
  isLoading (react s1) = isLoading (react s) /\
  generateContentCalls (trace s1) = generateContentCalls (trace s).
Proof.
  apply (description_survives_other_events demoInFlight UtteranceError);
    [discriminate|reflexivity].
Defined.

(** X15: the inference service is called only in answer to a click, and
    at most once per click: no other event, the failure of a call
    included, adds a request, so nothing is retried. *)
Theorem inference_only_on_click :
  forall s e,
  let before := generateContentCalls (trace s) in
  let after := generateContentCalls (trace (dispatch s e)) in
  match e with
  | Click => after = before \/ exists r, after = before ++ [r]
  | _ => after = before
  end.
Proof.
  intros s e. cbv zeta.
  destruct e as [|r| |id ok| |vs|r|rs w hh url];
    try (apply dispatch_sameCycle; [reflexivity|discriminate]).
  - break_state s.
    match goal with |- context [{| isLoading := ?b |}] => destruct b end.
    + left. reflexivity.
    + js. split_ifs; js; split_ifs;
        first [ left; read_trace; reflexivity
              | right; eexists; read_trace; reflexivity ].
  - break_state s.
    match goal with
    | |- context [{| pendingGenerateContent := ?l |}] => destruct l
    end; [reflexivity|].
    destruct r as [text|reason]; js.
    + destruct (Js.falsy text); js; split_ifs; js; read_trace; reflexivity.
    + split_ifs; read_trace; reflexivity.
Qed.

(** ** The voice list *)

Lemma dispatch_VoicesChanged s vs :
  onvoiceschanged (speechSynthesis s) = true ->
  let s1 := dispatch s (VoicesChanged vs) in
  voice (react s1)
  = match indonesianVoice vs with
    | Some w => Some w
    | None => voice (react s)
    end /\
  isLoading (react s1) = isLoading (react s) /\
  description (react s1) = description (react s) /\
  error (react s1) = error (react s) /\
  getVoices (platform s1) = vs.
Proof.
  intros Ho. break_state s. cbn in Ho. subst.
  unfold indonesianVoice, loadVoices. run_js. unfold loadVoices. run_js.
  destruct (find _ vs); run_js; [repeat split|].
  destruct (find _ vs); run_js; repeat split.
Qed.

Lemma find_first_match {A} (p : A -> bool) (l : list A) (a : A) :
  In a l -> p a = true -> exists b, find p l = Some b.
Proof.
  intros Hin Hp. destruct (find p l) as [b|] eqn:E; [now exists b|].
  now rewrite (find_none p l E a Hin) in Hp.
Qed.

(** X16: when the synthesizer announces a voice list that holds an
    Indonesian voice, the component selects a voice of that list whose tag
    starts with [id], and one tagged exactly [id-ID] if the list has one,
    wherever it stands in the list; hook state is otherwise kept. *)
Theorem voices_changed_selects_indonesian :
  forall p es vs v,
  In v vs -> Js.startsWith (lang v) "id" = true ->
  let s := run es (mount p) in
  let s1 := dispatch s (VoicesChanged vs) in
  (exists w, voice (react s1) = Some w /\ In w vs /\
     Js.startsWith (lang w) "id" = true /\
     ((exists u, In u vs /\ lang u = "id-ID") -> lang w = "id-ID")) /\
  isLoading (react s1) = isLoading (react s) /\
  description (react s1) = description (react s) /\
  error (react s1) = error (react s).
Proof.
  intros p es vs v Hin Hv s s1.
  assert (R : reachable s) by (exists p, es; reflexivity).
  apply reachable_tidy in R. destruct R as (_ & _ & _ & O).
  destruct (dispatch_VoicesChanged s vs O) as (V & L & D & E & _).
  fold s1 in V, L, D, E. split; [|repeat split; assumption].
  unfold indonesianVoice in V.
  destruct (find (fun v => (lang v =? "id-ID")%string) vs) as [w|] eqn:F1.
  - apply find_some in F1 as [I1 E1]. apply String.eqb_eq in E1.
    exists w. repeat split; auto. now rewrite E1.
  - destruct (find_first_match (fun v => Js.startsWith (lang v) "id") vs v
                Hin Hv) as [w F2].
    rewrite F2 in V. apply find_some in F2 as [I2 E2].
    exists w. repeat split; auto.
    intros (u & Iu & Eu). apply (find_none _ _ F1) in Iu.
    cbv beta in Iu. rewrite Eu in Iu. discriminate.
Qed.

Lemma voices_changed_selects_indonesian_witness :
  let vs := [ {| voiceName := "Andika"; lang := "id" |}; demoVoice ] in
  let s := run [Click] (mount demoPlatform) in
  let s1 := dispatch s (VoicesChanged vs) in
  (exists w, voice (react s1) = Some w /\ In w vs /\
     Js.startsWith (lang w) "id" = true /\
     ((exists u, In u vs /\ lang u = "id-ID") -> lang w = "id-ID")) /\
  isLoading (react s1) = isLoading (react s) /\
  description (react s1) = description (react s) /\
  error (react s1) = error (react s).
Proof.
  apply (voices_changed_selects_indonesian demoPlatform [Click]
           [ {| voiceName := "Andika"; lang := "id" |}; demoVoice ]
           {| voiceName := "Andika"; lang := "id" |}).
  - left. reflexivity.
  - reflexivity.
Defined.

(** X17: when the announced voice list holds no Indonesian voice, hook
    state is left as it is: a voice selected earlier stays selected, also
    when it is no longer in the list. *)
Theorem voices_changed_keeps_selection :
  forall p es vs,
  (forall v, In v vs -> Js.startsWith (lang v) "id" = false) ->
  let s := run es (mount p) in
  react (dispatch s (VoicesChanged vs)) = react s.
Proof.
  intros p es vs Hno s.
  assert (R : reachable s) by (exists p, es; reflexivity).
  apply reachable_tidy in R. destruct R as (_ & _ & _ & O).
  destruct (dispatch_VoicesChanged s vs O) as (V & L & D & E & _).
  assert (N : indonesianVoice vs = None).
  { destruct (indonesianVoice vs) as [w|] eqn:F; [|reflexivity].
    apply indonesianVoice_sound in F as [I F]. unfold isIndonesian in F.
    now rewrite (Hno w I) in F. }
  rewrite N in V.
  destruct (react (dispatch s (VoicesChanged vs))), (react s).
  cbn in V, L, D, E. congruence.
Qed.

Lemma voices_changed_keeps_selection_witness :
  let vs := [ {| voiceName := "Samantha"; lang := "en-US" |} ] in
  let s := run [Click] (mount demoPlatform) in
  react (dispatch s (VoicesChanged vs)) = react s.
Proof.
  apply (voices_changed_keeps_selection demoPlatform [Click]
           [ {| voiceName := "Samantha"; lang := "en-US" |} ]).
  intros v [<-|[]]. reflexivity.
Defined.

(** X18: once the cleanup has run, an announcement of the voice list no
    longer reaches the component: hook state and the trace stay as the
    cleanup left them. *)
Theorem no_voice_selection_after_cleanup :
  forall s vs,
  let s0 := exec unmount s in
  let s1 := dispatch s0 (VoicesChanged vs) in
  react s1 = react s0 /\ trace s1 = trace s0.
Proof.
  intros s vs. break_state s. run_js. split; reflexivity.
Qed.

(** ** The camera *)

(** X19: after mounting, the voice-list callback is registered, the voice
    is the one [loadVoices] selects from the voices already known, and on
    a host with [getUserMedia] the camera is asked for exactly once and
    nothing is said.  On a host without it the error is the fixed text of
    line 109, which is handed to the audio element with a listener that
    closes over no voice, no camera request is made, and a later camera
    answer changes nothing. *)
Theorem mount_asks_for_the_camera :
  forall p,
  let s := mount p in
  onvoiceschanged (speechSynthesis s) = true /\
  voice (react s) = indonesianVoice (getVoices p) /\
  isLoading (react s) = false /\ description (react s) = "" /\
  if mediaDevices p
  then error (react s) = "" /\
       pendingGetUserMedia (pending s) = true /\
       filter (fun e => match e with GetUserMedia => true | _ => false end)
         (trace s) = [GetUserMedia] /\
       speakCalls (trace s) = []
  else error (react s) = msgCameraUnsupported /\
       pendingGetUserMedia (pending s) = false /\
       filter (fun e => match e with GetUserMedia => true | _ => false end)
         (trace s) = [] /\
       speakCalls (trace s) = [msgCameraUnsupported] /\
       src (audio s) = ttsUrl msgCameraUnsupported /\
       errorListeners (audio s) = [firstAttempt msgCameraUnsupported] /\
       forall r, dispatch s (GetUserMediaSettled r) = s.
Proof.
  intros p. destruct p as [vs md th c2 url].
  unfold mount, effect, initial, loadVoices, indonesianVoice, firstAttempt.
  run_js.
  destruct (find (fun v => (lang v =? "id-ID")%string) vs); run_js;
    [|destruct (find (fun v => Js.startsWith (lang v) "id") vs); run_js].
  all: destruct md; js; repeat split.
Qed.

(** X20: the answer to the camera request is taken once.  A stream is
    attached to the video element and nothing else happens: hook state and
    the trace are kept.  A refusal sets the error to the fixed text of
    line 104 and speaks it through the audio element, with a listener that
    closes over no voice, and leaves the video element as it is.  A second
    answer changes nothing. *)
Theorem camera_answer_is_taken_once :
  forall p es r,
  let s := run es (mount p) in
  pendingGetUserMedia (pending s) = true ->
  let s1 := dispatch s (GetUserMediaSettled r) in
  pendingGetUserMedia (pending s1) = false /\
  (forall r', dispatch s1 (GetUserMediaSettled r') = s1) /\
  match r with
  | Fulfilled stream =>
      srcObject (video s1) = Some stream /\
      react s1 = react s /\ trace s1 = trace s
  | Rejected _ =>
      error (react s1) = msgCameraDenied /\
      video s1 = video s /\
      errorListeners (audio s1)
      = errorListeners (audio s) ++ [attemptOf s None msgCameraDenied] /\
      exists t, trace s1 = trace s ++ t /\
        speakCalls t = [msgCameraDenied] /\ speakLocallyCalls t = []
  end.
Proof.
  intros p es r s Hp s1.
  assert (R : reachable s) by (exists p, es; reflexivity).
  destruct (reachable_wellFormed s R) as [Hr _].
  subst s1. revert Hr Hp. generalize s. clear. intros s Hr Hp.
  break_state s. cbn in Hr, Hp. unfold attached in Hr.
  injection Hr as -> -> ->. subst. unfold attemptOf.
  destruct r as [stream|reason]; js; repeat split.
  eexists. split; [rewrite <- !app_assoc; cbn [app]; reflexivity|].
  split; reflexivity.
Qed.

Lemma camera_answer_is_taken_once_witness :
  let s := run [] (mount demoPlatform) in
  let s1 := dispatch s (GetUserMediaSettled (Fulfilled demoStream)) in
  pendingGetUserMedia (pending s1) = false /\
  (forall r', dispatch s1 (GetUserMediaSettled r') = s1) /\
  srcObject (video s1) = Some demoStream /\
  react s1 = react s /\ trace s1 = trace s.
Proof.
  apply (camera_answer_is_taken_once demoPlatform [] (Fulfilled demoStream)).
  reflexivity.
Defined.

(** ** The frame that is sent *)






(** ** The address given to the audio element *)

Lemma hexValue_hexDigit i : i < 16 -> hexValue (Js.hexDigit i) = i.
Proof.
  intros H. do 16 (destruct i as [|i]; [reflexivity|]). lia.
Qed.

Lemma unreserved_hexDigit i : i < 16 -> Js.unreserved (Js.hexDigit i) = true.
Proof.
  intros H. do 16 (destruct i as [|i]; [reflexivity|]). lia.
Qed.

Lemma high_digit_small c : nat_of_ascii c / 16 < 16.
Proof.
  pose proof (nat_ascii_bounded c) as B.
  apply Nat.Div0.div_lt_upper_bound. cbn. exact B.
Qed.

Lemma low_digit_small c : nat_of_ascii c mod 16 < 16.
Proof. apply Nat.mod_upper_bound. discriminate. Qed.

Lemma encoded_characters text :
  forallb (fun c => Js.unreserved c || Ascii.eqb c "%"%char)
    (list_ascii_of_string (Js.encodeURIComponent text)) = true.
Proof.
  induction text as [|c text IH]; [reflexivity|].
  cbn [Js.encodeURIComponent]. destruct (Js.unreserved c) eqn:U.
  - cbn [list_ascii_of_string forallb]. now rewrite U, IH.
  - cbv zeta. cbn [list_ascii_of_string forallb].
    rewrite !unreserved_hexDigit, IH
      by (apply high_digit_small || apply low_digit_small).
    reflexivity.
Qed.

(** X22: the text spoken stays inside the [q] parameter of the address:
    the address is the fixed beginning, the encoded text and the fixed
    end, and no character of the encoded text is a delimiter of an address
    ([&], [=], [#], [?], [/], [+], a blank and the like). *)
Theorem tts_address_confines_the_text :
  forall text c,
  In c (list_ascii_of_string (Js.encodeURIComponent text)) ->
  ~ In c urlDelimiters /\
  ttsUrl text
  = ("https://translate.google.com/translate_tts?ie=UTF-8&q="
     ++ Js.encodeURIComponent text ++ "&tl=id-ID&client=tw-ob")%string.
Proof.
  intros text c Hin. split; [|reflexivity].
  pose proof (encoded_characters text) as H.
  rewrite forallb_forall in H. specialize (H c Hin).
  intros Hd. unfold urlDelimiters in Hd. cbn [list_ascii_of_string In] in Hd.
  repeat (destruct Hd as [<-|Hd]; [discriminate H|]). exact Hd.
Qed.

Lemma tts_address_confines_the_text_witness :
  ~ In "A"%char urlDelimiters /\
  ttsUrl demoText
  = ("https://translate.google.com/translate_tts?ie=UTF-8&q="
     ++ Js.encodeURIComponent demoText ++ "&tl=id-ID&client=tw-ob")%string.
Proof.
  apply (tts_address_confines_the_text demoText "A"%char).
  vm_compute. left. reflexivity.
Defined.

Lemma percent_is_reserved : Js.unreserved "%"%char = false.
Proof. reflexivity. Qed.

Lemma encodeURIComponent_cons c s :
  Js.encodeURIComponent (String c s)
  = if Js.unreserved c then String c (Js.encodeURIComponent s)
    else String "%"%char
           (String (Js.hexDigit (nat_of_ascii c / 16))
              (String (Js.hexDigit (nat_of_ascii c mod 16))
                 (Js.encodeURIComponent s))).
Proof. reflexivity. Qed.

Lemma encodeURIComponent_injective a : forall b,
  Js.encodeURIComponent a = Js.encodeURIComponent b -> a = b.
Proof.
  induction a as [|c a IH]; intros [|d b] H.
  - reflexivity.
  - rewrite encodeURIComponent_cons in H. cbn [Js.encodeURIComponent] in H.
    destruct (Js.unreserved d); discriminate.
  - rewrite encodeURIComponent_cons in H. cbn [Js.encodeURIComponent] in H.
    destruct (Js.unreserved c); discriminate.
  - rewrite !encodeURIComponent_cons in H.
    destruct (Js.unreserved c) eqn:Uc, (Js.unreserved d) eqn:Ud.
    + injection H as -> H. f_equal. now apply IH.
    + injection H as -> _. rewrite percent_is_reserved in Uc. discriminate.
    + injection H as <- _. rewrite percent_is_reserved in Ud. discriminate.
    + injection H as Hhi Hlo H.
      apply (f_equal hexValue) in Hhi, Hlo.
      rewrite !hexValue_hexDigit in Hhi, Hlo
        by (apply high_digit_small || apply low_digit_small).
      assert (E : nat_of_ascii c = nat_of_ascii d).
      { pose proof (Nat.div_mod_eq (nat_of_ascii c) 16) as Ec.
        pose proof (Nat.div_mod_eq (nat_of_ascii d) 16) as Ed.
        assert (Hhi' : nat_of_ascii c / 16 = nat_of_ascii d / 16)
          by exact Hhi.
        assert (Hlo' : nat_of_ascii c mod 16 = nat_of_ascii d mod 16)
          by exact Hlo.
        rewrite Hhi', Hlo' in Ec. congruence. }
      apply (f_equal ascii_of_nat) in E.
      rewrite !ascii_nat_embedding in E. subst d. f_equal. now apply IH.
Qed.

Lemma append_cancel_l (p x y : string) :
  (p ++ x = p ++ y)%string -> x = y.
Proof.
  induction p as [|c p IH]; intros H; [exact H|].
  cbn in H. injection H as H. now apply IH.
Qed.

Lemma length_append (x y : string) :
  String.length (x ++ y) = String.length x + String.length y.
Proof. induction x as [|c x IH]; [reflexivity|]. cbn. now rewrite IH. Qed.

Lemma append_cancel_r (z : string) : forall x y : string,
  (x ++ z = y ++ z)%string -> x = y.
Proof.
  induction x as [|c x IH]; intros [|d y] H.
  - reflexivity.
  - apply (f_equal String.length) in H. cbn in H.
    rewrite length_append in H. lia.
  - apply (f_equal String.length) in H. cbn in H.
    rewrite length_append in H. lia.
  - cbn in H. injection H as -> H. f_equal. now apply IH.
Qed.

(** X23: two texts that differ are given two addresses that differ. *)
Theorem tts_address_injective :
  forall a b, ttsUrl a = ttsUrl b -> a = b.
Proof.
  intros a b H. unfold ttsUrl in H.
  apply append_cancel_l, append_cancel_r in H.
  now apply encodeURIComponent_injective.
Qed.

Lemma tts_address_injective_witness : demoText = demoText.
Proof. apply (tts_address_injective demoText demoText). reflexivity. Defined.

(** ** A text that cannot be put in an address *)

(** X24: when the inference call succeeds with a text that has a lone
    surrogate, the description is set to the text, and the [URIError]
    that [speak] throws at line 64 is caught by the [catch] of line 174:
    the error becomes the fixed text of line 176, [speak] is called a
    second time, with that text, and the cycle ends with the flag
    cleared and nothing thrown to the caller.  The listener of the first
    call was registered before the throw and stays on the audio element,
    next to the listener of the second call; only the second call has a
    [play] promise, and the address of the element is that of the error
    text. *)
Theorem ill_formed_text_is_reported_as_failure :
  forall s v rest text,
  refs s = attached ->
  pendingGenerateContent (pending s) = v :: rest ->
  Js.isWellFormed text = false ->
  let e := GenerateContentSettled (Fulfilled text) in
  let s2 := dispatch s e in
  let second :=
    {| closureId := S (nextId s); closureText := msgInferenceFailed;
       closureVoice := v |} in
  completion (handle e) s = Normal tt /\
  description (react s2) = text /\
  error (react s2) = msgInferenceFailed /\
  isLoading (react s2) = false /\
  (exists t, trace s2 = trace s ++ t /\
     speakCalls t = [text; msgInferenceFailed] /\
     speakLocallyCalls t = [] /\
     errorWrites t = [msgInferenceFailed]) /\
  errorListeners (audio s2)
  = errorListeners (audio s) ++ [attemptOf s v text; second] /\
  pendingPlay (pending s2) = pendingPlay (pending s) ++ [second] /\
  src (audio s2) = ttsUrl msgInferenceFailed.
Proof.
  intros s v rest text Hr Hp Hw.
  assert (Hf : Js.falsy text = false)
    by (destruct text; [discriminate Hw|reflexivity]).
  break_state s. cbn in Hr, Hp.
  unfold attached in Hr. injection Hr as -> -> ->. subst.
  unfold attemptOf, ttsUrl. js. rewrite Hf. js. rewrite Hw. js.
  repeat match goal with
         | |- _ /\ _ => split
         | |- exists _, _ => eexists
         end.
  all: rewrite <- ?app_assoc; cbn [app]; reflexivity.
Qed.

Lemma ill_formed_text_witness :
  let s := demoInFlight in
  let text := demoLoneSurrogate in
  let e := GenerateContentSettled (Fulfilled text) in
  let s2 := dispatch s e in
  let second :=
    {| closureId := S (nextId s); closureText := msgInferenceFailed;
       closureVoice := Some demoVoice |} in
  completion (handle e) s = Normal tt /\
  description (react s2) = text /\
  error (react s2) = msgInferenceFailed /\
  isLoading (react s2) = false /\
  (exists t, trace s2 = trace s ++ t /\
     speakCalls t = [text; msgInferenceFailed] /\
     speakLocallyCalls t = [] /\
     errorWrites t = [msgInferenceFailed]) /\
  errorListeners (audio s2)
  = errorListeners (audio s) ++ [attemptOf s (Some demoVoice) text; second] /\
  pendingPlay (pending s2) = pendingPlay (pending s) ++ [second] /\
  src (audio s2) = ttsUrl msgInferenceFailed.
Proof.
  apply (ill_formed_text_is_reported_as_failure demoInFlight
           (Some demoVoice) [] demoLoneSurrogate); reflexivity.
Defined.

(** ** The address of the audio element *)

Lemma addressStep_refl s : addressStep s s.
Proof. left. reflexivity. Qed.

Lemma addressStep_trans s1 s2 s3 :
  addressStep s1 s2 -> addressStep s2 s3 -> addressStep s1 s3.
Proof.
  unfold addressStep. intros H12 [E|H]; [|right; exact H].
  rewrite E. exact H12.
Qed.

Lemma addressed_step s s' : addressed s -> addressStep s s' -> addressed s'.
Proof.
  unfold addressed, addressStep. intros H [E|H']; [|right; exact H'].
  rewrite E. exact H.
Qed.

Ltac address_done :=
  unfold addressStep; run_js;
  first
    [ left; reflexivity
    | right; eexists; (split; [|reflexivity]);
      first [assumption | reflexivity] ].

Lemma speakLocally_addressStep v text s :
  addressStep s (exec (speakLocally v text) s).
Proof. left. now rewrite speakLocally_keeps_audio. Qed.

Lemma fireErrorListeners_addressStep ls s :
  addressStep s (exec (fireErrorListeners ls) s).
Proof. left. apply fireErrorListeners_spec. Qed.

Lemma dispatch_addressStep e s : addressStep s (dispatch s e).
Proof.
  destruct e as [|r| |id ok| |vs|r|rs w hh url].
  - break_state s.
    match goal with |- context [{| isLoading := ?b |}] => destruct b end.
    + apply addressStep_refl.
    + js. split_ifs; js; split_ifs; address_done.
  - break_state s.
    match goal with
    | |- context [{| pendingGenerateContent := ?l |}] => destruct l
    end; [apply addressStep_refl|].
    destruct r as [text|reason]; js.
    + destruct (Js.isWellFormed text) eqn:W; destruct (Js.falsy text); js;
        repeat (rewrite ?W; js;
                try match goal with
                    | |- context [if ?b then _ else _] => is_var b; destruct b
                    end);
        address_done.
    + split_ifs; address_done.
  - rewrite dispatch_AudioError. apply fireErrorListeners_addressStep.
  - unfold dispatch, handle. rewrite (exec_bind _ _ s s) by reflexivity.
    change (exec get s) with s.
    destruct (find _ _) as [c|]; [|apply addressStep_refl].
    destruct ok.
    + break_state s. address_done.
    + left. destruct (rejection_spec c s) as (A & _). now rewrite A.
  - break_state s. run_js.
    match goal with |- context [match ?l with [] => _ | _ :: _ => _ end] =>
      destruct l end; address_done.
  - unfold dispatch, handle. rewrite (exec_bind _ _ s s) by reflexivity.
    change (exec get s) with s.
    rewrite (exec_bind _ _ s tt) by reflexivity.
    destruct (onvoiceschanged (speechSynthesis s)).
    + rewrite loadVoices_unfold. destruct (indonesianVoice _).
      * break_state s. address_done.
      * break_state s. address_done.
    + break_state s. address_done.
  - break_state s.
    match goal with
    | |- context [{| pendingGetUserMedia := ?b |}] => destruct b
    end; [|apply addressStep_refl].
    destruct r as [stream|reason]; js; split_ifs; address_done.
  - break_state s. run_js.
    match goal with |- context [match ?o with Some _ => _ | None => _ end] =>
      destruct o end; address_done.
Qed.

Lemma mount_addressed p : addressed (mount p).
Proof.
  unfold mount, effect.
  rewrite (exec_bind _ _ _ tt) by reflexivity.
  set (s0 := exec (modify _) (initial p)).
  assert (L : completion loadVoices s0 = Normal tt).
  { unfold loadVoices, completion, bind, get. cbn.
    destruct (find _ _); [reflexivity|]. destruct (find _ _); reflexivity. }
  rewrite (exec_bind _ _ _ tt) by exact L.
  assert (A1 : addressed (exec loadVoices s0)).
  { rewrite loadVoices_unfold. destruct (indonesianVoice _);
      subst s0; destruct p; left; reflexivity. }
  eapply addressed_step; [exact A1|].
  generalize (exec loadVoices s0). intros s.
  break_state s. js. split_ifs; address_done.
Qed.

(** X25: in every state the mounted component reaches, the audio element
    has no address or the address built from a text without a lone
    surrogate: [encodeURIComponent] returned for every address the
    element was given, so what is known of [ttsUrl] holds of it. *)
Theorem address_is_of_an_encoded_text :
  forall p es, addressed (run es (mount p)).
Proof.
  intros p es. generalize (mount_addressed p). generalize (mount p).
  induction es as [|e es IH]; intros s H; [exact H|].
  rewrite run_cons. apply IH. eapply addressed_step; [exact H|].
  apply dispatch_addressStep.
Qed.
